(** * case-sensitive-paths-webpack-plugin: the directory-listing cache and
      the case-verification walk of [src/index.js]

    The development has three layers.

    - [Path]: the three functions of Node's [path] module the plugin calls
      ([dirname], [basename], [parse]), in their POSIX flavour, written as
      the backward scans over character indices they are.
    - the plugin object ([pathCache], [visitedPathMutexRecord],
      [fsOperations]) with [reset], and the run of one request at a time
      ([getFilenamesInDir], [fileExistsWithCase], [checkFile],
      [cleanupPath], [onAfterResolve], the before-emit hook).
    - the event loop with several requests in flight: the per-directory
      mutexes, the pending [fs.readdir] calls and the order in which their
      callbacks run, as a transition system ([step], [reachable]). *)

From Stdlib Require Import Ascii String.
From stdpp Require Import gmap strings list fin_maps.

Local Open Scope string_scope.

(** ** JavaScript strings *)

(** A string is its sequence of code units. The [path] functions compare
    code units with [/] only and the plugin compares whole strings, so the
    width of a unit does not matter here. *)

(** [s.slice(a, b)] for [0 <= a], [0 <= b]. *)
Definition slice (a b : nat) (s : string) : string :=
  String.substring a (b - a) s.

(** [s.charCodeAt(i) === 47]. *)
Definition isSlashAt (s : string) (i : nat) : bool :=
  match String.get i s with
  | Some c => bool_decide (c = "/"%char)
  | None => false
  end.

(** The two Unicode operations of [String.prototype] the plugin relies on:
    [s.toLowerCase()] and [s.normalize('NFC')]. The plugin never looks
    inside them, so the development is parametric in them; [ascii_unicode]
    below is the instance used to run examples. The plugin calls
    [normalize] only where the runtime has it ([f.normalize ? ... : f]);
    the runtime modelled here has it. *)
Class Unicode := {
  toLowerCase : string -> string;
  normalizeNFC : string -> string
}.

Definition ascii_lower (c : ascii) : ascii :=
  let n := nat_of_ascii c in
  if (65 <=? n)%nat && (n <=? 90)%nat then ascii_of_nat (n + 32) else c.

Fixpoint map_string (f : ascii -> ascii) (s : string) : string :=
  match s with
  | EmptyString => EmptyString
  | String c r => String (f c) (map_string f r)
  end.

(** On ASCII text every string is already in NFC and lowercasing touches
    [A]..[Z] only. *)
Definition ascii_unicode : Unicode :=
  {| toLowerCase := map_string ascii_lower; normalizeNFC := fun s => s |}.

(** ** Node's [path] module, POSIX flavour *)

Module Path.

(** The loop of [dirname]: [for (i = path.length - 1; i >= 1; --i)].
    The argument is the current [i]; the result is [end], [None] for -1. *)
Fixpoint dirname_scan (path : string) (i : nat) (matchedSlash : bool)
  : option nat :=
  match i with
  | O => None
  | S k =>
      if isSlashAt path i then
        if negb matchedSlash then Some i
        else dirname_scan path k matchedSlash
      else dirname_scan path k false
  end.

Definition dirname (path : string) : string :=
  if (String.length path =? 0)%nat then "."
  else
    let hasRoot := isSlashAt path 0 in
    match dirname_scan path (String.length path - 1) true with
    | None => if hasRoot then "/" else "."
    | Some e =>
        if hasRoot && (e =? 1)%nat then "//" else slice 0 e path
    end.

(** The loop of [basename] (no suffix argument):
    [for (i = path.length - 1; i >= 0; --i)]. The argument [n] is [i + 1];
    the result is the pair [(start, end)]. *)
Fixpoint basename_scan (path : string) (n : nat) (matchedSlash : bool)
    (end_ : option nat) : nat * option nat :=
  match n with
  | O => (0, end_)
  | S i =>
      if isSlashAt path i then
        if negb matchedSlash then (i + 1, end_)
        else basename_scan path i matchedSlash end_
      else
        match end_ with
        | None => basename_scan path i false (Some (i + 1))
        | Some _ => basename_scan path i matchedSlash end_
        end
  end.

Definition basename (path : string) : string :=
  match basename_scan path (String.length path) true None with
  | (_, None) => ""
  | (start, Some e) => slice start e path
  end.

(** The fields of [path.parse]'s result that the plugin reads. *)
Record parsed := { root : string; dir : string }.

(** The loop of [parse]: [for (i = path.length - 1; i >= start; --i)],
    where [start] is 1 for an absolute path and 0 otherwise. The argument
    [n] counts the indices still to visit, so that [i = start + n - 1];
    the result is [startPart]. *)
Fixpoint parse_scan (path : string) (start n : nat) (matchedSlash : bool)
  : nat :=
  match n with
  | O => 0
  | S k =>
      let i := start + k in
      if isSlashAt path i then
        if negb matchedSlash then i + 1
        else parse_scan path start k matchedSlash
      else parse_scan path start k false
  end.

Definition parse (path : string) : parsed :=
  if (String.length path =? 0)%nat then {| root := ""; dir := "" |}
  else
    let isAbsolute := isSlashAt path 0 in
    let start := if isAbsolute then 1 else 0 in
    let startPart :=
      parse_scan path start (String.length path - start) true in
    {| root := if isAbsolute then "/" else "";
       dir := if (0 <? startPart)%nat then slice 0 (startPart - 1) path
              else if isAbsolute then "/" else "" |}.

End Path.


(** ** The plugin object and the run of one request *)

(** A waiter of a mutex is identified by the number of the call that made
    it. The holder of a mutex is in one of three phases: the lock was handed
    to it but its critical section has not run yet, its critical section
    returned a promise that waits for [fs.readdir], or its critical section
    is over and [release] is the next thing to happen. *)
Inductive phase := Granted | Reading | Settled.

#[global] Instance phase_eq_dec : EqDecision phase.
Proof. solve_decision. Defined.

(** [new Mutex()] of async-mutex: at most one holder, first come first
    served. *)
Record mutex := { holder : option (nat * phase); waiters : list nat }.

Definition newMutex : mutex := {| holder := None; waiters := [] |}.

Record plugin := {
  pathCache : gmap string (list string);
  visitedPathMutexRecord : gmap string mutex;
  fsOperations : nat
}.

(** [reset]: a new [pathCache], [visitedPathMutexRecord.clear()] and
    [fsOperations = 0]. *)
Definition reset (this : plugin) : plugin :=
  {| pathCache := ∅; visitedPathMutexRecord := ∅; fsOperations := 0 |}.

(** The constructor creates both maps and calls [reset]. *)
Definition CaseSensitivePathsPlugin : plugin :=
  reset {| pathCache := ∅; visitedPathMutexRecord := ∅; fsOperations := 0 |}.

(** [compiler.inputFileSystem.readdir]: the answer for a directory is an
    error ([None]) or the names it lists. *)
Definition inputFileSystem := string -> option (list string).

(** The plugin together with the [fs.readdir] calls issued so far, oldest
    first. *)
Record state := { this : plugin; readdirCalls : list string }.

(** The state at plugin attachment: nothing cached, nothing read. *)
Definition freshState : state :=
  {| this := CaseSensitivePathsPlugin; readdirCalls := [] |}.

(** [if (!visitedPathMutexRecord.has(dir)) visitedPathMutexRecord.set(dir,
    new Mutex())]. *)
Definition ensureMutex (dir : string) (p : plugin) : plugin :=
  match visitedPathMutexRecord p !! dir with
  | Some _ => p
  | None =>
      {| pathCache := pathCache p;
         visitedPathMutexRecord := <[dir := newMutex]> (visitedPathMutexRecord p);
         fsOperations := fsOperations p |}
  end.

(** What the callback of [fs.readdir] stores and hands on:
    [[]] on error, [files.map(f => f.normalize('NFC'))] otherwise. *)
Definition listingOf `{Unicode} (answer : option (list string)) : list string :=
  match answer with
  | None => []
  | Some files => normalizeNFC <$> files
  end.

(** [that.fsOperations += 1]. *)
Definition countRead (p : plugin) : plugin :=
  {| pathCache := pathCache p;
     visitedPathMutexRecord := visitedPathMutexRecord p;
     fsOperations := fsOperations p + 1 |}.

(** [that.pathCache.set(dir, fileNames)]. *)
Definition storeListing (dir : string) (fileNames : list string) (p : plugin)
  : plugin :=
  {| pathCache := <[dir := fileNames]> (pathCache p);
     visitedPathMutexRecord := visitedPathMutexRecord p;
     fsOperations := fsOperations p |}.

(** [getFilenamesInDir] when no other request is in flight: the mutex is
    free, so [runExclusive] runs the critical section at once and the mutex
    is free again when the callback has run. The result is what the callback
    receives. *)
Definition getFilenamesInDir `{Unicode} (fs : inputFileSystem) (dir : string)
    (s : state) : list string * state :=
  let p := ensureMutex dir (this s) in
  match pathCache p !! dir with
  | Some filenames =>
      (filenames, {| this := p; readdirCalls := readdirCalls s |})
  | None =>
      let fileNames := listingOf (fs dir) in
      (fileNames,
       {| this := storeListing dir fileNames (countRead p);
          readdirCalls := readdirCalls s ++ [dir] |})
  end.

(** [filenames.indexOf(filename)], [None] for -1. *)
Fixpoint indexOf (filename : string) (filenames : list string) : option nat :=
  match filenames with
  | [] => None
  | f :: rest =>
      if String.eqb f filename then Some 0
      else S <$> indexOf filename rest
  end.

(** The [for] loop of [fileExistsWithCase] with its fallback value. *)
Fixpoint correctFilename `{Unicode} (filename : string)
    (filenames : list string) : string :=
  match filenames with
  | [] => "!nonexistent"
  | f :: rest =>
      if String.eqb (toLowerCase f) (toLowerCase filename)
      then "`" ++ f ++ "`."
      else correctFilename filename rest
  end.

(** The test that ends the walk:
    [parsedPath.dir === parsedPath.root || dir === '.'] for
    [dir = path.dirname(filepath)] and [parsedPath = path.parse(dir)]. *)
Definition atRoot (filepath : string) : bool :=
  let dir := Path.dirname filepath in
  let parsedPath := Path.parse dir in
  String.eqb (Path.dir parsedPath) (Path.root parsedPath)
  || String.eqb dir ".".

(** [fileExistsWithCase]. The value handed to the callback is [undefined]
    ([None]) or a string. [fuel] bounds the depth of the recursion; [None]
    is "out of fuel". *)
Fixpoint fileExistsWithCase `{Unicode} (fs : inputFileSystem) (fuel : nat)
    (filepath : string) (s : state) : option (option string * state) :=
  match fuel with
  | O => None
  | S fuel' =>
      let dir := Path.dirname filepath in
      let filename := Path.basename filepath in
      if atRoot filepath then Some (None, s)
      else
        let '(filenames, s1) := getFilenamesInDir fs dir s in
        match indexOf filename filenames with
        | None => Some (Some (correctFilename filename filenames), s1)
        | Some _ => fileExistsWithCase fs fuel' dir s1
        end
  end.

(** Fuel that is always enough: the path gets shorter at every level. *)
Definition enough (filepath : string) : nat := S (String.length filepath).

(** What [checkFile] passes to [done]. *)
Inductive done_args :=
| DoneNull
| DoneNullData
| DoneError (message : string).

(** JavaScript truthiness of [undefined] and of a string. *)
Definition truthy (v : option string) : bool :=
  match v with
  | None => false
  | Some s => negb (String.eqb s "")
  end.

Definition proceed (hasCreateData : bool) : done_args :=
  if hasCreateData then DoneNull else DoneNullData.

Definition errorMessage (pathName realName : string) : string :=
  "[CaseSensitivePathsPlugin] `" ++ pathName
  ++ "` does not match the corresponding path on disk " ++ realName.

(** The callback [checkFile] gives to [fileExistsWithCase]. *)
Definition onRealName (pathName : string) (hasCreateData : bool)
    (realName : option string) : done_args :=
  if truthy realName then
    match realName with
    | Some r =>
        if String.eqb r "!nonexistent" then proceed hasCreateData
        else DoneError (errorMessage pathName r)
    | None => proceed hasCreateData
    end
  else proceed hasCreateData.

Definition checkFile `{Unicode} (fs : inputFileSystem) (fuel : nat)
    (pathName : string) (hasCreateData : bool) (s : state)
  : option (done_args * state) :=
  match fileExistsWithCase fs fuel pathName s with
  | Some (realName, s') => Some (onRealName pathName hasCreateData realName, s')
  | None => None
  end.

(** [s.split(sep)[0]] for a one-character separator. *)
Fixpoint splitHead (sep : ascii) (s : string) : string :=
  match s with
  | EmptyString => EmptyString
  | String c rest =>
      if bool_decide (c = sep) then EmptyString
      else String c (splitHead sep rest)
  end.

(** [s.replace(pattern, replacement)] for a string pattern: the first
    occurrence only. *)
Fixpoint replaceFirst (pattern replacement s : string) : string :=
  if String.prefix pattern s then
    replacement
    ++ String.substring (String.length pattern)
         (String.length s - String.length pattern) s
  else
    match s with
    | EmptyString => EmptyString
    | String c rest => String c (replaceFirst pattern replacement rest)
    end.

Definition escapedHash : string := String "000"%char "#".

Definition cleanupPath (resourcePath : string) : string :=
  replaceFirst escapedHash "#" (splitHead "?"%char resourcePath).

(** The [data] of the after-resolve hook: [data.createData.resource] when
    [createData] is there, and [data.resource]. *)
Record resolveData := { createData : option string; resource : string }.

Definition hasCreateData (data : resolveData) : bool :=
  match createData data with Some _ => true | None => false end.

(** [(data.createData || data).resource]. *)
Definition requestedResource (data : resolveData) : string :=
  match createData data with Some r => r | None => resource data end.

(** [(data.createData || data).resource], cleaned and normalized. *)
Definition resolvedPathName `{Unicode} (data : resolveData) : string :=
  normalizeNFC
    (cleanupPath
       (match createData data with Some r => r | None => resource data end)).

Definition onAfterResolve `{Unicode} (fs : inputFileSystem) (fuel : nat)
    (data : resolveData) (s : state) : option (done_args * state) :=
  checkFile fs fuel (resolvedPathName data) (hasCreateData data) s.

(** The hook installed when [options.useBeforeEmitHook] is set calls
    [checkFile(filename, filename, ...)] for every file dependency, line
    240. This is the check of one dependency: the path verified is the
    dependency as it is, and the [data] argument, a string, has no
    [createData]. The fuel is enough for the dependency's length. *)
Definition emitCheck `{Unicode} (fs : inputFileSystem) (filename : string)
    (s : state) : option (done_args * state) :=
  checkFile fs (enough filename) filename false s.

(** [onDone]: the log line apart, [this.reset()]. The file system keeps its
    own history. *)
Definition onDone (s : state) : state :=
  {| this := reset (this s); readdirCalls := readdirCalls s |}.

(** *** The outcome of a verification, in the words of the specification *)

Inductive VerificationResult :=
| Confirmed
| Mismatch (correctedFilename : string)
| Nonexistent.

(** The JavaScript value that stands for an outcome. *)
Definition encode (r : VerificationResult) : option string :=
  match r with
  | Confirmed => None
  | Mismatch real => Some ("`" ++ real ++ "`.")
  | Nonexistent => Some "!nonexistent"
  end.

(** The first entry of a listing that equals [filename] up to case. *)
Definition firstIgnoringCase `{Unicode} (filename : string)
    (filenames : list string) : option string :=
  List.find
    (fun f => String.eqb (toLowerCase f) (toLowerCase filename)) filenames.

(** Steps 1 to 5 of the specification's algorithm, over the same cache. *)
Fixpoint verify `{Unicode} (fs : inputFileSystem) (fuel : nat)
    (filepath : string) (s : state) : option (VerificationResult * state) :=
  match fuel with
  | O => None
  | S fuel' =>
      if atRoot filepath then Some (Confirmed, s)
      else
        let '(filenames, s1) :=
          getFilenamesInDir fs (Path.dirname filepath) s in
        if bool_decide (Path.basename filepath ∈ filenames)
        then verify fs fuel' (Path.dirname filepath) s1
        else
          match firstIgnoringCase (Path.basename filepath) filenames with
          | Some real => Some (Mismatch real, s1)
          | None => Some (Nonexistent, s1)
          end
  end.

(** How the hook reads the delivered value. *)
Definition hookRejects (d : done_args) : bool :=
  match d with DoneError _ => true | _ => false end.

(** [pattern] occurs somewhere in [s]. *)
Fixpoint occurs (pattern s : string) : bool :=
  String.prefix pattern s
  || match s with
     | EmptyString => false
     | String _ rest => occurs pattern rest
     end.

(** A case-insensitive, case-preserving file system given by a table of
    directories, to run examples: a directory is found whatever the case it
    is asked in, its listing has the names as they are on disk, and a
    directory that is not in the table cannot be read. *)
Definition tableFs (table : list (string * list string)) : inputFileSystem :=
  fun dir =>
    snd <$> List.find
              (fun entry =>
                 String.eqb (map_string ascii_lower entry.1)
                   (map_string ascii_lower dir)) table.

Definition exampleDisk : inputFileSystem :=
  tableFs
    [("/", ["home"]);
     ("/home", ["User"]);
     ("/home/User", ["Project"; "notes.txt"]);
     ("/home/User/Project", ["Index.js"; "INDEX.js"; "README.md"; "src"]);
     ("/home/User/Project/src", ["main.js"; "!nonexistent"; "Page.js?v=1"])].

(** An instance with one canonical equivalence, to run examples: code unit
    143 stands for the ANGSTROM SIGN, whose normal form is the LATIN CAPITAL
    LETTER A WITH RING ABOVE, code unit 197. *)
Definition angstromNFC (c : ascii) : ascii :=
  if bool_decide (c = ascii_of_nat 143) then ascii_of_nat 197 else c.

Definition angstrom_unicode : Unicode :=
  {| toLowerCase := map_string ascii_lower;
     normalizeNFC := map_string angstromNFC |}.

(** A directory that has the letter on disk, and a request that spells it
    with the sign and carries a query. *)
Definition labDisk : inputFileSystem :=
  tableFs
    [("/srv", ["lab"]);
     ("/srv/lab", ["notes.txt"; String (ascii_of_nat 197) ".js"])].

Definition labRequest : resolveData :=
  {| createData := None;
     resource := "/srv/lab/" ++ String (ascii_of_nat 143) ".js?raw" |}.

(** ** The event loop: several requests in flight *)

(** The mutex of [dir] is an object held by the map; a change of its state
    is a change of the map's entry. *)
Definition setMutex (dir : string) (m : mutex) (p : plugin) : plugin :=
  {| pathCache := pathCache p;
     visitedPathMutexRecord := <[dir := m]> (visitedPathMutexRecord p);
     fsOperations := fsOperations p |}.

(** The mutex of a directory; a directory never asked for has none, which
    is as good as a free one. *)
Definition mutexOf (dir : string) (p : plugin) : mutex :=
  default newMutex (visitedPathMutexRecord p !! dir).

(** async-mutex hands the lock to the head of the queue when nobody holds
    it. *)
Definition dispatch (m : mutex) : mutex :=
  match holder m, waiters m with
  | None, c :: rest => {| holder := Some (c, Granted); waiters := rest |}
  | _, _ => m
  end.

(** [acquire]: queue up, then dispatch. *)
Definition acquire (c : nat) (m : mutex) : mutex :=
  dispatch {| holder := holder m; waiters := waiters m ++ [c] |}.

(** [release]: the holder goes, then dispatch. *)
Definition release (m : mutex) : mutex :=
  dispatch {| holder := None; waiters := waiters m |}.

Definition setPhase (ph : phase) (m : mutex) : mutex :=
  {| holder := (fun h => (h.1, ph)) <$> holder m; waiters := waiters m |}.

(** The world of one build pass: the plugin and the file system's history,
    the [fs.readdir] calls that have not called back yet (directory and the
    call that is waiting for it), the callbacks of [getFilenamesInDir] that
    have run (call, directory, value received), and the directory of every
    call of [getFilenamesInDir] made so far: call number [c] is the
    [c]-th. *)
Record world := {
  node : state;
  inflight : list (string * nat);
  delivered : list (nat * string * list string);
  calls : list string
}.

Definition passStart : world :=
  {| node := freshState; inflight := []; delivered := []; calls := [] |}.

(** The [done] hook of the compiler: [onDone] on the plugin, everything else
    as it is. The state of a mutex is kept in the record here, so the record
    being cleared forgets who held and who waited; in the code the [Mutex]
    objects of the old pass live on until their callers are through. What
    is stated about [doDone] below concerns the plugin's fields and calls
    made after it only. *)
Definition doDone (w : world) : world :=
  {| node := onDone (node w); inflight := inflight w;
     delivered := delivered w; calls := calls w |}.

(** What the event loop runs next. *)
Inductive event :=
| Call (dir : string)
    (** somebody calls [getFilenamesInDir(dir, callback)] *)
| Run (dir : string)
    (** the critical section of the holder of [dir]'s mutex starts *)
| Return (dir : string) (c : nat) (answer : option (list string))
    (** [fs.readdir] calls back for the read that call [c] issued *)
| Release (dir : string)
    (** [runExclusive] releases [dir]'s mutex *).

(** Lines 73 to 88: create the mutex, serve from the cache, or queue for the
    mutex. *)
Definition doCall (dir : string) (w : world) : world :=
  let p := ensureMutex dir (this (node w)) in
  let c := length (calls w) in
  match pathCache p !! dir with
  | Some filenames =>
      {| node := {| this := p; readdirCalls := readdirCalls (node w) |};
         inflight := inflight w;
         delivered := delivered w ++ [(c, dir, filenames)];
         calls := calls w ++ [dir] |}
  | None =>
      {| node := {| this := setMutex dir (acquire c (mutexOf dir p)) p;
                    readdirCalls := readdirCalls (node w) |};
         inflight := inflight w;
         delivered := delivered w;
         calls := calls w ++ [dir] |}
  end.

(** Lines 89 to 104: the critical section up to the call of [fs.readdir]. *)
Definition doRun (dir : string) (w : world) : option world :=
  let p := this (node w) in
  match holder (mutexOf dir p) with
  | Some (c, Granted) =>
      match pathCache p !! dir with
      | Some filenames =>
          Some
            {| node := {| this := setMutex dir (setPhase Settled (mutexOf dir p)) p;
                          readdirCalls := readdirCalls (node w) |};
               inflight := inflight w;
               delivered := delivered w ++ [(c, dir, filenames)];
               calls := calls w |}
      | None =>
          Some
            {| node := {| this := setMutex dir (setPhase Reading (mutexOf dir p))
                                    (countRead p);
                          readdirCalls := readdirCalls (node w) ++ [dir] |};
               inflight := inflight w ++ [(dir, c)];
               delivered := delivered w;
               calls := calls w |}
      end
  | _ => None
  end.

Fixpoint removeFirst (x : string * nat) (l : list (string * nat))
  : list (string * nat) :=
  match l with
  | [] => []
  | y :: rest => if decide (x = y) then rest else y :: removeFirst x rest
  end.

(** [done()] resolves the promise that call [c]'s critical section
    returned. *)
Definition resolvePromise (c : nat) (m : mutex) : mutex :=
  match holder m with
  | Some (c', Reading) => if decide (c' = c) then setPhase Settled m else m
  | _ => m
  end.

(** Lines 104 to 122: the callback of [fs.readdir]. *)
Definition doReturn `{Unicode} (dir : string) (c : nat)
    (answer : option (list string)) (w : world) : option world :=
  if bool_decide ((dir, c) ∈ inflight w) then
    let fileNames := listingOf answer in
    let p := storeListing dir fileNames (this (node w)) in
    Some
      {| node := {| this := setMutex dir (resolvePromise c (mutexOf dir p)) p;
                    readdirCalls := readdirCalls (node w) |};
         inflight := removeFirst (dir, c) (inflight w);
         delivered := delivered w ++ [(c, dir, fileNames)];
         calls := calls w |}
  else None.

(** [runExclusive] after the critical section: [release()]. *)
Definition doRelease (dir : string) (w : world) : option world :=
  let p := this (node w) in
  match holder (mutexOf dir p) with
  | Some (_, Settled) =>
      Some
        {| node := {| this := setMutex dir (release (mutexOf dir p)) p;
                      readdirCalls := readdirCalls (node w) |};
           inflight := inflight w;
           delivered := delivered w;
           calls := calls w |}
  | _ => None
  end.

Definition step `{Unicode} (e : event) (w : world) : option world :=
  match e with
  | Call dir => Some (doCall dir w)
  | Run dir => doRun dir w
  | Return dir c answer => doReturn dir c answer w
  | Release dir => doRelease dir w
  end.

(** A schedule is a list of events; it runs as far as every event is
    enabled. *)
Fixpoint run `{Unicode} (schedule : list event) (w : world) : option world :=
  match schedule with
  | [] => Some w
  | e :: rest =>
      match step e w with
      | Some w' => run rest w'
      | None => None
      end
  end.

(** The worlds of a build pass. *)
Inductive reachable `{Unicode} : world -> Prop :=
| reachable_start : reachable passStart
| reachable_step w e w' :
    reachable w -> step e w = Some w' -> reachable w'.

(** Nobody holds the mutex of [dir]. *)
Definition idle (dir : string) (w : world) : Prop :=
  holder (mutexOf dir (this (node w))) = None.

(** The work left for the requests that queue at [dir]'s mutex. *)
Definition backlog (dir : string) (w : world) : nat :=
  let m := mutexOf dir (this (node w)) in
  match holder m with
  | None => 0
  | Some (_, Granted) => 3
  | Some (_, Reading) => 2
  | Some (_, Settled) => 1
  end + 3 * length (waiters m).

(** The next event for [dir] when the file system answers as [fs] says. *)
Definition nextEvent (fs : inputFileSystem) (dir : string) (w : world)
  : option event :=
  match holder (mutexOf dir (this (node w))) with
  | None => None
  | Some (_, Granted) => Some (Run dir)
  | Some (c, Reading) => Some (Return dir c (fs dir))
  | Some (_, Settled) => Some (Release dir)
  end.

(** Run the requests for [dir] for [n] events. *)
Fixpoint drain `{Unicode} (fs : inputFileSystem) (dir : string) (n : nat)
    (w : world) : option world :=
  match n with
  | O => Some w
  | S k =>
      match nextEvent fs dir w with
      | None => Some w
      | Some e =>
          match step e w with
          | Some w' => drain fs dir k w'
          | None => None
          end
      end
  end.

(** The reads issued for [dir]. *)
Definition readsOf (dir : string) (w : world) : nat :=
  length (filter (fun d => d = dir) (readdirCalls (node w))).

(** The reads for [dir] that have not called back. *)
Definition pendingOf (dir : string) (w : world) : list (string * nat) :=
  filter (fun x => x.1 = dir) (inflight w).

(** What holds of every world of a build pass, directory by directory. *)
Record consistent (w : world) : Prop := {
  reads_counted : forall dir,
    readsOf dir w =
    match pathCache (this (node w)) !! dir with Some _ => 1 | None => 0 end
    + length (pendingOf dir w);
  pending_holder : forall dir,
    pendingOf dir w =
    match holder (mutexOf dir (this (node w))) with
    | Some (c, Reading) => [(dir, c)]
    | _ => []
    end;
  reading_uncached : forall dir c,
    holder (mutexOf dir (this (node w))) = Some (c, Reading) ->
    pathCache (this (node w)) !! dir = None;
  delivered_cached : forall c dir v,
    (c, dir, v) ∈ delivered w ->
    pathCache (this (node w)) !! dir = Some v;
  operations_counted :
    fsOperations (this (node w)) = length (readdirCalls (node w));
  free_empty : forall dir,
    holder (mutexOf dir (this (node w))) = None ->
    waiters (mutexOf dir (this (node w))) = [];
  settled_delivered : forall dir c,
    holder (mutexOf dir (this (node w))) = Some (c, Settled) ->
    exists v, (c, dir, v) ∈ delivered w;
  calls_accounted : forall c dir,
    calls w !! c = Some dir ->
    (exists v, (c, dir, v) ∈ delivered w)
    \/ c ∈ waiters (mutexOf dir (this (node w)))
    \/ exists ph, holder (mutexOf dir (this (node w))) = Some (c, ph)
}.

(** Three requests for the same directory before its listing is there, a
    fourth while the read is in flight, for examples. *)
Definition crowdedSchedule : list event :=
  [Call "/home"; Call "/home"; Call "/home"; Run "/home"; Call "/home"].

Definition crowdedWorld : world :=
  default passStart (@run ascii_unicode crowdedSchedule passStart).

(** One request served, for examples. *)
Definition servedSchedule : list event :=
  [Call "/home"; Run "/home"; Return "/home" 0 (Some ["User"]);
   Release "/home"].

Definition servedWorld : world :=
  default passStart (@run ascii_unicode servedSchedule passStart).

(** ** The walk, level by level *)

(** The paths at which the walk lists a directory when every basename is
    found: the path itself, its [dirname], and so on up to the path at which
    the walk stops, that one left out. [fuel] is as for
    [fileExistsWithCase]. *)
Fixpoint ancestors (fuel : nat) (filepath : string) : list string :=
  match fuel with
  | O => []
  | S fuel' =>
      if atRoot filepath then []
      else filepath :: ancestors fuel' (Path.dirname filepath)
  end.

(** What [getFilenamesInDir] answers for a directory in a given state: the
    cache entry when there is one, what [fs.readdir] gives otherwise. *)
Definition listed `{Unicode} (fs : inputFileSystem) (s : state)
    (dir : string) : list string :=
  match pathCache (this s) !! dir with
  | Some filenames => filenames
  | None => listingOf (fs dir)
  end.

(** ** The before-emit hook, with its bookkeeping *)

(** [resolvedFilesCount] and [errors] of the hook's closure,
    [compilation.errors], and how often the hook's [callback] has been
    called. *)
Record emitState := {
  resolvedFilesCount : nat;
  errors : list string;
  compilationErrors : list string;
  callbacks : nat
}.

(** The function the hook passes to [checkFile] as [done], lines 240 to
    252; [size] is [compilation.fileDependencies.size]. *)
Definition onChecked (size : nat) (d : done_args) (e : emitState)
  : emitState :=
  let count := resolvedFilesCount e + 1 in
  let errs :=
    match d with
    | DoneError m => (errors e ++ [m])%list
    | _ => errors e
    end in
  if (count =? size)%nat then
    {| resolvedFilesCount := count;
       errors := errs;
       compilationErrors :=
         match errs with
         | [] => compilationErrors e
         | _ => (compilationErrors e ++ errs)%list
         end;
       callbacks := callbacks e + 1 |}
  else
    {| resolvedFilesCount := count;
       errors := errs;
       compilationErrors := compilationErrors e;
       callbacks := callbacks e |}.

(** The state of the hook's closure when [forEach] has started the checks
    and none has answered yet. *)
Definition emitStart (compilationErrors0 : list string) : emitState :=
  {| resolvedFilesCount := 0; errors := [];
     compilationErrors := compilationErrors0; callbacks := 0 |}.

(** The checks answer in whatever order their directory reads come back.
    [answers] is what they pass to [done], in the order in which they
    answer; every answer runs the function above once. *)
Fixpoint completions (size : nat) (answers : list done_args) (e : emitState)
  : emitState :=
  match answers with
  | [] => e
  | d :: rest => completions size rest (onChecked size d e)
  end.

(** The messages of the checks that failed, in the order of the answers. *)
Fixpoint failures (answers : list done_args) : list string :=
  match answers with
  | [] => []
  | DoneError m :: rest => m :: failures rest
  | _ :: rest => failures rest
  end.

(** ** More about the worlds of a pass *)

(** The calls whose callback has run, in the order in which it ran. *)
Definition answeredCalls (w : world) : list nat :=
  (fun x => x.1.1) <$> delivered w.

(** The directory an event belongs to. *)
Definition eventDir (e : event) : string :=
  match e with
  | Call dir | Run dir | Return dir _ _ | Release dir => dir
  end.

(** The events of a schedule that work on the mutex of [dir]: all but the
    calls. *)
Definition worksOn (dir : string) (e : event) : bool :=
  match e with
  | Call _ => false
  | _ => bool_decide (eventDir e = dir)
  end.

Definition isCallOf (dir : string) (e : event) : bool :=
  match e with
  | Call d => bool_decide (d = dir)
  | _ => false
  end.

(** Who waits, who holds and who was answered, in every world of a pass. *)
Record orderly (w : world) : Prop := {
  delivered_known : forall c dir v,
    (c, dir, v) ∈ delivered w -> calls w !! c = Some dir;
  delivered_once : NoDup (answeredCalls w);
  waiter_known : forall dir c,
    c ∈ waiters (mutexOf dir (this (node w))) ->
    calls w !! c = Some dir /\ c ∉ answeredCalls w;
  holder_known : forall dir c ph,
    holder (mutexOf dir (this (node w))) = Some (c, ph) ->
    calls w !! c = Some dir
    /\ (ph <> Settled -> c ∉ answeredCalls w)
    /\ c ∉ waiters (mutexOf dir (this (node w)));
  waiters_once : forall dir,
    NoDup (waiters (mutexOf dir (this (node w))));
  reads_called : forall dir,
    dir ∈ readdirCalls (node w) -> dir ∈ calls w;
  mutex_called : forall dir,
    is_Some (visitedPathMutexRecord (this (node w)) !! dir)
    <-> dir ∈ calls w
}.

(** * Properties *)

(** ** Strings and paths *)

(** Node's answers on a few paths. *)
Example dirname_abc : Path.dirname "/a/b/c.txt" = "/a/b".
Proof. reflexivity. Qed.
Example dirname_a : Path.dirname "/a" = "/".
Proof. reflexivity. Qed.
Example dirname_ssa : Path.dirname "//a" = "//".
Proof. reflexivity. Qed.
Example dirname_rel : Path.dirname "a" = ".".
Proof. reflexivity. Qed.
Example dirname_trailing : Path.dirname "/a/b//" = "/a".
Proof. reflexivity. Qed.
Example basename_abc : Path.basename "/a/b/c.txt" = "c.txt".
Proof. reflexivity. Qed.
Example basename_trailing : Path.basename "/a/b//" = "b".
Proof. reflexivity. Qed.
Example basename_root : Path.basename "/" = "".
Proof. reflexivity. Qed.
Example parse_ab :
  Path.parse "/a/b" = {| Path.root := "/"; Path.dir := "/a" |}.
Proof. reflexivity. Qed.
Example parse_a :
  Path.parse "/a" = {| Path.root := "/"; Path.dir := "/" |}.
Proof. reflexivity. Qed.
Example parse_rel :
  Path.parse "a/b" = {| Path.root := ""; Path.dir := "a" |}.
Proof. reflexivity. Qed.
Example parse_rel1 :
  Path.parse "a" = {| Path.root := ""; Path.dir := "" |}.
Proof. reflexivity. Qed.

Lemma length_substring_0 (n : nat) (s : string) :
  n <= String.length s -> String.length (String.substring 0 n s) = n.
Proof.
  revert n. induction s as [|c s IH]; intros [|n] Hn; simpl in *; try lia.
  rewrite IH; lia.
Qed.

Lemma length_slice_0 (e : nat) (s : string) :
  e <= String.length s -> String.length (slice 0 e s) = e.
Proof.
  intros He. unfold slice. rewrite Nat.sub_0_r. by apply length_substring_0.
Qed.

Lemma dirname_scan_bound (path : string) (i : nat) (m : bool) (e : nat) :
  Path.dirname_scan path i m = Some e -> 1 <= e <= i.
Proof.
  revert m. induction i as [|k IH]; intros m; simpl; [done|].
  destruct (isSlashAt path (S k)).
  - destruct m; simpl.
    + intros Hk. apply IH in Hk. lia.
    + intros [= <-]. lia.
  - intros Hk. apply IH in Hk. lia.
Qed.

(** The three values [dirname] returns without slicing all end the walk. *)
Lemma atRoot_of_dirname_special (filepath : string) :
  Path.dirname filepath = "." \/ Path.dirname filepath = "/"
  \/ Path.dirname filepath = "//" ->
  atRoot filepath = true.
Proof.
  unfold atRoot. intros [-> | [-> | ->]]; reflexivity.
Qed.

(** Where the walk goes on, the directory is a proper prefix of the path. *)
Lemma dirname_shorter (filepath : string) :
  atRoot filepath = false ->
  String.length (Path.dirname filepath) < String.length filepath.
Proof.
  intros Hroot.
  destruct (decide (Path.dirname filepath = "." \/ Path.dirname filepath = "/"
                    \/ Path.dirname filepath = "//")) as [Hs | Hs].
  { apply atRoot_of_dirname_special in Hs. congruence. }
  revert Hs. unfold Path.dirname.
  destruct (String.length filepath =? 0)%nat eqn:Hlen; [tauto|].
  apply Nat.eqb_neq in Hlen.
  destruct (Path.dirname_scan filepath (String.length filepath - 1) true)
    as [e|] eqn:Hscan.
  - apply dirname_scan_bound in Hscan.
    destruct (isSlashAt filepath 0 && (e =? 1)%nat); [tauto|].
    intros _. rewrite length_slice_0; lia.
  - destruct (isSlashAt filepath 0); tauto.
Qed.

(** The walk stops at every fixed point of [dirname]. *)
Lemma dirname_fixpoint (filepath : string) :
  Path.dirname filepath = filepath -> atRoot filepath = true.
Proof.
  intros Hfix. destruct (atRoot filepath) eqn:Hroot; [done|].
  apply dirname_shorter in Hroot. rewrite Hfix in Hroot. lia.
Qed.

Lemma length_append (a b : string) :
  String.length (a ++ b) = String.length a + String.length b.
Proof. induction a as [|c a IH]; simpl; [done | by rewrite IH]. Qed.

Lemma append_inj_suffix (a b t : string) : a ++ t = b ++ t -> a = b.
Proof.
  revert b. induction a as [|c a IH]; intros [|d b] Hab.
  - done.
  - apply (f_equal String.length) in Hab.
    rewrite !length_append in Hab. simpl in Hab. lia.
  - apply (f_equal String.length) in Hab.
    rewrite !length_append in Hab. simpl in Hab. lia.
  - change (String c (a ++ t) = String d (b ++ t)) in Hab.
    injection Hab as -> Hab. f_equal. by apply IH.
Qed.

(** *** [split('?')[0]] and [replace] *)

Lemma splitHead_none (sep : ascii) (s : string) :
  sep ∉ list_ascii_of_string s -> splitHead sep s = s.
Proof.
  induction s as [|c s IH]; simpl; [done|].
  intros [Hne Hs]%not_elem_of_cons.
  rewrite bool_decide_eq_false_2 by congruence. by rewrite IH.
Qed.


Lemma splitHead_clean (sep : ascii) (s : string) :
  sep ∉ list_ascii_of_string (splitHead sep s).
Proof.
  induction s as [|c s IH]; simpl; [apply not_elem_of_nil|].
  case_bool_decide as Hc; simpl; [apply not_elem_of_nil|].
  apply not_elem_of_cons. split; [congruence | done].
Qed.

Lemma substring_all (s : string) : String.substring 0 (String.length s) s = s.
Proof. induction s as [|c s IH]; simpl; [done | by rewrite IH]. Qed.

Lemma replaceFirst_none (pattern replacement s : string) :
  occurs pattern s = false -> replaceFirst pattern replacement s = s.
Proof.
  induction s as [|c s IH]; cbn [occurs replaceFirst].
  - by destruct (String.prefix pattern "").
  - destruct (String.prefix pattern (String c s)); [done|].
    intros Hs. by rewrite IH.
Qed.

Lemma prefix_cons (a : ascii) (p : string) (c : ascii) (s : string) :
  String.prefix (String a p) (String c s)
  = if ascii_dec a c then String.prefix p s else false.
Proof. reflexivity. Qed.

Lemma prefix_nil (s : string) : String.prefix "" s = true.
Proof. by destruct s. Qed.

(** The first [\0#] becomes [#]; what comes before and after it stays. *)
Lemma replaceFirst_escapedHash (pre post : string) :
  occurs escapedHash pre = false ->
  replaceFirst escapedHash "#" (pre ++ escapedHash ++ post)
  = pre ++ "#" ++ post.
Proof.
  induction pre as [|c pre IH].
  - intros _.
    change (replaceFirst escapedHash "#" (String "000" (String "#" post))
            = String "#" post).
    unfold escapedHash. destruct post as [|a post]; cbn; [done|].
    by rewrite substring_all.
  - intros Hocc. cbn [occurs] in Hocc.
    apply orb_false_iff in Hocc as [Hhead Hrest].
    change (String c pre ++ escapedHash ++ post)
      with (String c (pre ++ escapedHash ++ post)).
    change (String c pre ++ "#" ++ post)
      with (String c (pre ++ "#" ++ post)).
    assert (Hnot : String.prefix escapedHash
                     (String c (pre ++ escapedHash ++ post)) = false).
    { unfold escapedHash in *. rewrite prefix_cons in Hhead |- *.
      destruct (ascii_dec "000" c) as [Hc | Hc]; [|done].
      destruct pre as [|d pre].
      - change ("" ++ String "000" "#" ++ post)
          with (String "000" (String "#" post)).
        rewrite prefix_cons. by destruct (ascii_dec "#" "000").
      - change (String d pre ++ String "000" "#" ++ post)
          with (String d (pre ++ String "000" "#" ++ post)).
        rewrite prefix_cons in Hhead |- *.
        destruct (ascii_dec "#" d); [|done].
        by rewrite prefix_nil in Hhead. }
    cbn [replaceFirst]. rewrite Hnot. by rewrite IH.
Qed.

(** ** The plugin object *)

Lemma pathCache_ensureMutex (dir : string) (p : plugin) :
  pathCache (ensureMutex dir p) = pathCache p.
Proof. unfold ensureMutex. by destruct (visitedPathMutexRecord p !! dir). Qed.

Lemma fsOperations_ensureMutex (dir : string) (p : plugin) :
  fsOperations (ensureMutex dir p) = fsOperations p.
Proof. unfold ensureMutex. by destruct (visitedPathMutexRecord p !! dir). Qed.

Lemma ensureMutex_has (dir : string) (p : plugin) :
  is_Some (visitedPathMutexRecord (ensureMutex dir p) !! dir).
Proof.
  unfold ensureMutex.
  destruct (visitedPathMutexRecord p !! dir) eqn:E; simpl; [by rewrite E|].
  by rewrite lookup_insert_eq.
Qed.

Lemma ensureMutex_idem (dir : string) (p : plugin) :
  is_Some (visitedPathMutexRecord p !! dir) -> ensureMutex dir p = p.
Proof. intros [m Hm]. unfold ensureMutex. by rewrite Hm. Qed.

(** A cached directory is served as it is stored, and nothing changes but
    the mutex that may have to be created. *)
Lemma getFilenamesInDir_cached `{U : Unicode} (fs : inputFileSystem)
    (dir : string) (v : list string) (s : state) :
  pathCache (this s) !! dir = Some v ->
  getFilenamesInDir fs dir s
  = (v, {| this := ensureMutex dir (this s);
           readdirCalls := readdirCalls s |}).
Proof.
  intros Hc. unfold getFilenamesInDir. by rewrite pathCache_ensureMutex, Hc.
Qed.

Lemma getFilenamesInDir_miss `{U : Unicode} (fs : inputFileSystem)
    (dir : string) (s : state) :
  pathCache (this s) !! dir = None ->
  getFilenamesInDir fs dir s
  = (listingOf (fs dir),
     {| this := storeListing dir (listingOf (fs dir))
                  (countRead (ensureMutex dir (this s)));
        readdirCalls := readdirCalls s ++ [dir] |}).
Proof.
  intros Hc. unfold getFilenamesInDir. by rewrite pathCache_ensureMutex, Hc.
Qed.

(** ** The run of one request *)

Section OneRequest.
Context `{U : Unicode}.
Variable fs : inputFileSystem.

Lemma indexOf_None (filename : string) (filenames : list string) :
  indexOf filename filenames = None <-> filename ∉ filenames.
Proof.
  induction filenames as [|f rest IH]; simpl.
  - split; [intros _; apply not_elem_of_nil | done].
  - rewrite not_elem_of_cons. destruct (String.eqb_spec f filename) as [-> | Hne].
    + split; [done | intros [? _]; done].
    + destruct (indexOf filename rest); simpl.
      * split; [done | intros [_ Hin]; by apply IH in Hin].
      * split; [intros _; split; [congruence | by apply IH] | done].
Qed.

Lemma indexOf_Some (filename : string) (filenames : list string) :
  filename ∈ filenames -> exists i, indexOf filename filenames = Some i.
Proof.
  intros Hin. destruct (indexOf filename filenames) as [i|] eqn:E; [eauto|].
  by apply indexOf_None in E.
Qed.

Lemma correctFilename_first (filename : string) (filenames : list string) :
  correctFilename filename filenames =
  match firstIgnoringCase filename filenames with
  | Some real => "`" ++ real ++ "`."
  | None => "!nonexistent"
  end.
Proof.
  unfold firstIgnoringCase.
  induction filenames as [|f rest IH]; simpl; [done|].
  destruct (String.eqb (toLowerCase f) (toLowerCase filename)); [done|].
  apply IH.
Qed.

(** [firstIgnoringCase] returns the first match in listing order. *)
Lemma firstIgnoringCase_Some (filename real : string)
    (filenames : list string) :
  firstIgnoringCase filename filenames = Some real ->
  exists before after,
    filenames = (before ++ real :: after)%list
    /\ toLowerCase real = toLowerCase filename
    /\ Forall (fun f => toLowerCase f <> toLowerCase filename) before.
Proof.
  unfold firstIgnoringCase.
  induction filenames as [|f rest IH]; simpl; [done|].
  destruct (String.eqb_spec (toLowerCase f) (toLowerCase filename))
    as [Heq | Hne].
  - intros [= <-]. exists [], rest. by repeat split.
  - intros Hfind. destruct (IH Hfind) as (before & after & -> & Hr & Hb).
    exists (f :: before), after. repeat split; [done|]. by constructor.
Qed.

Lemma firstIgnoringCase_None (filename : string) (filenames : list string) :
  firstIgnoringCase filename filenames = None <->
  Forall (fun f => toLowerCase f <> toLowerCase filename) filenames.
Proof.
  unfold firstIgnoringCase.
  induction filenames as [|f rest IH]; simpl.
  - split; [by constructor | done].
  - destruct (String.eqb_spec (toLowerCase f) (toLowerCase filename))
      as [Heq | Hne].
    + split; [done | intros HF; by inversion HF].
    + rewrite IH. split; [by constructor | intros HF; by inversion HF].
Qed.

(** The delivered value is the encoding of the specification's outcome. *)
Lemma fileExistsWithCase_verify (fuel : nat) (filepath : string) (s : state) :
  fileExistsWithCase fs fuel filepath s =
  (fun r => (encode r.1, r.2)) <$> verify fs fuel filepath s.
Proof.
  revert filepath s. induction fuel as [|fuel IH]; intros filepath s; simpl;
    [done|].
  destruct (atRoot filepath); [done|].
  destruct (getFilenamesInDir fs (Path.dirname filepath) s)
    as [filenames s1].
  case_bool_decide as Hin.
  - destruct (indexOf_Some _ _ Hin) as [i ->]. apply IH.
  - apply indexOf_None in Hin. rewrite Hin, correctFilename_first.
    by destruct (firstIgnoringCase (Path.basename filepath) filenames).
Qed.

(** Enough fuel: the walk ends, and more fuel changes nothing. *)
Lemma verify_total (fuel : nat) (filepath : string) (s : state) :
  String.length filepath < fuel ->
  exists r s', forall extra,
    verify fs (fuel + extra) filepath s = Some (r, s').
Proof.
  revert filepath s. induction fuel as [|fuel IH]; intros filepath s Hlen;
    [lia|]. simpl.
  destruct (atRoot filepath) eqn:Hroot; [by eauto|].
  apply dirname_shorter in Hroot.
  destruct (getFilenamesInDir fs (Path.dirname filepath) s)
    as [filenames s1].
  case_bool_decide.
  - apply IH. lia.
  - destruct (firstIgnoringCase (Path.basename filepath) filenames);
      by eauto.
Qed.

Lemma fileExistsWithCase_total (fuel : nat) (filepath : string) (s : state) :
  String.length filepath < fuel ->
  exists v s', forall extra,
    fileExistsWithCase fs (fuel + extra) filepath s = Some (v, s').
Proof.
  intros Hlen. destruct (verify_total fuel filepath s Hlen) as (r & s' & Hv).
  exists (encode r), s'. intros extra.
  by rewrite fileExistsWithCase_verify, Hv.
Qed.

Lemma encode_inj (r1 r2 : VerificationResult) :
  encode r1 = encode r2 -> r1 = r2.
Proof.
  destruct r1 as [|a|], r2 as [|b|]; simpl; try done.
  intros [= Hab]. f_equal. exact (append_inj_suffix a b "`." Hab).
Qed.

Lemma onRealName_encode (pathName : string) (cd : bool)
    (r : VerificationResult) :
  onRealName pathName cd (encode r) =
  match r with
  | Mismatch real =>
      DoneError (errorMessage pathName ("`" ++ real ++ "`."))
  | _ => proceed cd
  end.
Proof. by destruct r. Qed.

End OneRequest.

(** ** The case-verification walk *)

(** C8. If the parent of the path's [dirname] equals its root, or the
    [dirname] is the sentinel ["."], verification stops at once and reports
    Confirmed: the value handed to the callback is [undefined], the hook
    lets the resolution proceed, and the state, which holds the cache, the
    mutexes, the read counter and the history of [fs.readdir], is the one it
    started from. *)
Theorem root_stops_without_reading `{U : Unicode} (fs : inputFileSystem)
    (fuel : nat) (filepath : string) (s : state) :
  Path.dir (Path.parse (Path.dirname filepath))
  = Path.root (Path.parse (Path.dirname filepath))
  \/ Path.dirname filepath = "." ->
  fileExistsWithCase fs (S fuel) filepath s = Some (None, s)
  /\ verify fs (S fuel) filepath s = Some (Confirmed, s)
  /\ forall cd, checkFile fs (S fuel) filepath cd s = Some (proceed cd, s).
Proof.
  intros Hstop.
  assert (Hroot : atRoot filepath = true).
  { unfold atRoot. apply orb_true_iff.
    destruct Hstop as [Hp | Hd]; [left | right]; by apply String.eqb_eq. }
  unfold checkFile. simpl. rewrite Hroot. by repeat split.
Qed.

Lemma root_stops_without_reading_witness :
  @fileExistsWithCase ascii_unicode exampleDisk 1 "/home/user" freshState
  = Some (None, freshState)
  /\ @verify ascii_unicode exampleDisk 1 "/home/user" freshState
     = Some (Confirmed, freshState)
  /\ forall cd,
       @checkFile ascii_unicode exampleDisk 1 "/home/user" cd freshState
       = Some (proceed cd, freshState).
Proof.
  apply (@root_stops_without_reading ascii_unicode exampleDisk 0 "/home/user"
           freshState).
  left. reflexivity.
Defined.

(** C3, as stated, fails where the walk stops before it lists anything:
    ["/home"] lists [User] only, so the basename of ["/home/user"] is not in
    the listing of its parent and [User] matches it up to case, yet the
    parent of ["/home"] is the root and the outcome is Confirmed. *)
Lemma mismatch_below_root_not_reported :
  Path.dirname "/home/user" = "/home"
  /\ Path.basename "/home/user" = "user"
  /\ (@getFilenamesInDir ascii_unicode exampleDisk "/home" freshState).1
     = ["User"]
  /\ indexOf "user" ["User"] = None
  /\ @firstIgnoringCase ascii_unicode "user" ["User"] = Some "User"
  /\ forall fuel,
       @verify ascii_unicode exampleDisk (S fuel) "/home/user" freshState
       = Some (Confirmed, freshState)
       /\ @fileExistsWithCase ascii_unicode exampleDisk (S fuel) "/home/user"
            freshState
          = Some (None, freshState).
Proof. repeat split; reflexivity. Qed.

(** C3, amended. When the walk does not stop at the path (the parent of its
    [dirname] is not the root and the [dirname] is not ["."]), its basename
    is not in the listing of the [dirname] verbatim and some entry of the
    listing equals it up to case, the outcome is Mismatch with the first
    such entry in listing order; the value handed to the callback is that
    entry between backticks, followed by a period. *)
Theorem mismatch_reports_first_match `{U : Unicode} (fs : inputFileSystem)
    (fuel : nat) (filepath : string) (s s1 : state)
    (filenames : list string) (entry : string) :
  atRoot filepath = false ->
  getFilenamesInDir fs (Path.dirname filepath) s = (filenames, s1) ->
  indexOf (Path.basename filepath) filenames = None ->
  entry ∈ filenames ->
  toLowerCase entry = toLowerCase (Path.basename filepath) ->
  exists real before after,
    filenames = (before ++ real :: after)%list
    /\ toLowerCase real = toLowerCase (Path.basename filepath)
    /\ Forall (fun f => toLowerCase f <> toLowerCase (Path.basename filepath))
         before
    /\ verify fs (S fuel) filepath s = Some (Mismatch real, s1)
    /\ fileExistsWithCase fs (S fuel) filepath s
       = Some (Some ("`" ++ real ++ "`."), s1).
Proof.
  intros Hroot Hlist Hidx Hin Hlow.
  destruct (firstIgnoringCase (Path.basename filepath) filenames)
    as [real|] eqn:Hfirst.
  - destruct (firstIgnoringCase_Some _ _ _ Hfirst)
      as (before & after & Heq & Hreal & Hbefore).
    exists real, before, after. repeat split; try done.
    + simpl. rewrite Hroot, Hlist.
      rewrite bool_decide_eq_false_2 by by apply indexOf_None.
      by rewrite Hfirst.
    + simpl. rewrite Hroot, Hlist, Hidx, correctFilename_first.
      by rewrite Hfirst.
  - apply firstIgnoringCase_None in Hfirst.
    rewrite Forall_forall in Hfirst. by apply Hfirst in Hin.
Qed.

Lemma mismatch_reports_first_match_witness :
  exists real before after,
    ["Index.js"; "INDEX.js"; "README.md"; "src"]
    = (before ++ real :: after)%list
    /\ @toLowerCase ascii_unicode real
       = @toLowerCase ascii_unicode
           (Path.basename "/home/User/Project/index.js")
    /\ Forall (fun f => @toLowerCase ascii_unicode f
                        <> @toLowerCase ascii_unicode
                             (Path.basename "/home/User/Project/index.js"))
         before
    /\ @verify ascii_unicode exampleDisk 1 "/home/User/Project/index.js"
         freshState
       = Some (Mismatch real,
               (@getFilenamesInDir ascii_unicode exampleDisk
                  "/home/User/Project" freshState).2)
    /\ @fileExistsWithCase ascii_unicode exampleDisk 1
         "/home/User/Project/index.js" freshState
       = Some (Some ("`" ++ real ++ "`."),
               (@getFilenamesInDir ascii_unicode exampleDisk
                  "/home/User/Project" freshState).2).
Proof.
  apply (@mismatch_reports_first_match ascii_unicode exampleDisk 0
           "/home/User/Project/index.js" freshState _ _ "INDEX.js").
  - reflexivity.
  - reflexivity.
  - reflexivity.
  - apply elem_of_cons. right. apply elem_of_cons. by left.
  - reflexivity.
Defined.

(** C4, as stated, fails for the same reason: nothing in ["/home"] equals
    [zzz.txt] up to case, but the walk stops at ["/home/zzz.txt"] before it
    lists anything and the outcome is Confirmed, not Nonexistent. *)
Lemma nonexistent_below_root_not_reported :
  Path.dirname "/home/zzz.txt" = "/home"
  /\ Path.basename "/home/zzz.txt" = "zzz.txt"
  /\ (@getFilenamesInDir ascii_unicode exampleDisk "/home" freshState).1
     = ["User"]
  /\ @firstIgnoringCase ascii_unicode "zzz.txt" ["User"] = None
  /\ forall fuel,
       @verify ascii_unicode exampleDisk (S fuel) "/home/zzz.txt" freshState
       = Some (Confirmed, freshState)
       /\ @verify ascii_unicode exampleDisk (S fuel) "/home/zzz.txt" freshState
          <> Some (Nonexistent,
                   (@getFilenamesInDir ascii_unicode exampleDisk "/home"
                      freshState).2).
Proof. repeat split; try reflexivity. discriminate. Qed.

(** C4, amended. When the walk does not stop at the path and no entry of
    the listing of its [dirname] equals its basename up to case, the outcome
    is Nonexistent, which no Mismatch equals, neither as an outcome nor as
    the value handed to the callback (the string [!nonexistent]), and
    [checkFile] lets the resolution proceed. Whatever the outcome, the hook
    rejects exactly when it is a Mismatch. *)
Theorem nonexistent_is_not_an_error `{U : Unicode} (fs : inputFileSystem)
    (fuel : nat) (filepath : string) (s s1 : state)
    (filenames : list string) :
  atRoot filepath = false ->
  getFilenamesInDir fs (Path.dirname filepath) s = (filenames, s1) ->
  Forall (fun f => toLowerCase f <> toLowerCase (Path.basename filepath))
    filenames ->
  verify fs (S fuel) filepath s = Some (Nonexistent, s1)
  /\ fileExistsWithCase fs (S fuel) filepath s
     = Some (Some "!nonexistent", s1)
  /\ (forall real, Nonexistent <> Mismatch real
                   /\ encode Nonexistent <> encode (Mismatch real))
  /\ (forall cd, checkFile fs (S fuel) filepath cd s = Some (proceed cd, s1))
  /\ (forall pathName cd r,
        hookRejects (onRealName pathName cd (encode r)) = true
        <-> exists real, r = Mismatch real).
Proof.
  intros Hroot Hlist Hnone.
  assert (Hfirst : firstIgnoringCase (Path.basename filepath) filenames = None)
    by by apply firstIgnoringCase_None.
  assert (Hnotin : Path.basename filepath ∉ filenames).
  { intros Hin. rewrite Forall_forall in Hnone. by apply Hnone in Hin. }
  assert (Hv : verify fs (S fuel) filepath s = Some (Nonexistent, s1)).
  { simpl. rewrite Hroot, Hlist, bool_decide_eq_false_2 by done.
    by rewrite Hfirst. }
  assert (Hf : fileExistsWithCase fs (S fuel) filepath s
               = Some (Some "!nonexistent", s1)).
  { by rewrite fileExistsWithCase_verify, Hv. }
  split; [done|]. split; [done|]. split; [|split].
  - intros real. split; [done|]. intros Heq. by apply encode_inj in Heq.
  - intros cd. unfold checkFile. by rewrite Hf.
  - intros pathName cd r. rewrite onRealName_encode. split.
    + destruct r; simpl; [by destruct cd | by eauto | by destruct cd].
    + by intros [real ->].
Qed.

Lemma nonexistent_is_not_an_error_witness :
  @verify ascii_unicode exampleDisk 1 "/home/User/zzz.txt" freshState
  = Some (Nonexistent,
          (@getFilenamesInDir ascii_unicode exampleDisk "/home/User"
             freshState).2)
  /\ @fileExistsWithCase ascii_unicode exampleDisk 1 "/home/User/zzz.txt"
       freshState
     = Some (Some "!nonexistent",
             (@getFilenamesInDir ascii_unicode exampleDisk "/home/User"
                freshState).2)
  /\ (forall real, Nonexistent <> Mismatch real
                   /\ encode Nonexistent <> encode (Mismatch real))
  /\ (forall cd,
        @checkFile ascii_unicode exampleDisk 1 "/home/User/zzz.txt" cd
          freshState
        = Some (proceed cd,
                (@getFilenamesInDir ascii_unicode exampleDisk "/home/User"
                   freshState).2))
  /\ (forall pathName cd r,
        hookRejects (onRealName pathName cd (encode r)) = true
        <-> exists real, r = Mismatch real).
Proof.
  apply (@nonexistent_is_not_an_error ascii_unicode exampleDisk 0
           "/home/User/zzz.txt" freshState _ ["Project"; "notes.txt"]).
  - reflexivity.
  - reflexivity.
  - repeat constructor; discriminate.
Defined.


(** C10. [fileExistsWithCase] ends for every path: fuel for one level more
    than the path has characters is enough, and more fuel does not change
    the result. Every recursive call is on [path.dirname] of the current
    path, and either the walk stops there or that [dirname] is strictly
    shorter; in particular the walk stops at every fixed point of
    [path.dirname]. *)
Theorem fileExistsWithCase_terminates `{U : Unicode} (fs : inputFileSystem)
    (filepath : string) (s : state) :
  (exists v s', forall extra,
      fileExistsWithCase fs (enough filepath + extra) filepath s
      = Some (v, s'))
  /\ (atRoot filepath = true
      \/ String.length (Path.dirname filepath) < String.length filepath)
  /\ (Path.dirname filepath <> filepath \/ atRoot filepath = true)
  /\ (forall fuel,
        fileExistsWithCase fs (S fuel) filepath s
        = if atRoot filepath then Some (None, s)
          else
            let r := getFilenamesInDir fs (Path.dirname filepath) s in
            match indexOf (Path.basename filepath) r.1 with
            | None => Some (Some (correctFilename (Path.basename filepath) r.1),
                            r.2)
            | Some _ => fileExistsWithCase fs fuel (Path.dirname filepath) r.2
            end).
Proof.
  split; [apply fileExistsWithCase_total; unfold enough; lia|].
  split.
  { destruct (atRoot filepath) eqn:Hroot; [by left|right].
    by apply dirname_shorter. }
  split.
  { destruct (decide (Path.dirname filepath = filepath)) as [Hfix|Hne];
      [right; by apply dirname_fixpoint | by left]. }
  intros fuel. simpl. destruct (atRoot filepath); [done|].
  by destruct (getFilenamesInDir fs (Path.dirname filepath) s).
Qed.

(** A path that is spelled as on disk is Confirmed after two reads. *)
Example exact_path_confirmed :
  exists s',
    @verify ascii_unicode exampleDisk (enough "/home/User/Project/README.md")
      "/home/User/Project/README.md" freshState
    = Some (Confirmed, s')
    /\ readdirCalls s' = ["/home/User/Project"; "/home/User"].
Proof. eexists. split; vm_compute; reflexivity. Qed.

(** A directory spelled wrongly two levels above the file is found. *)
Example wrong_directory_found :
  exists s',
    @verify ascii_unicode exampleDisk (enough "/home/User/project/README.md")
      "/home/User/project/README.md" freshState
    = Some (Mismatch "Project", s').
Proof. eexists. vm_compute. reflexivity. Qed.

(** A file that is called [!nonexistent] on disk, asked for in capitals. *)
Example sentinel_named_file :
  exists s',
    @checkFile ascii_unicode exampleDisk
      (enough "/home/User/Project/src/!NONEXISTENT")
      "/home/User/Project/src/!NONEXISTENT" false freshState
    = Some (DoneError
              (errorMessage "/home/User/Project/src/!NONEXISTENT"
                 "`!nonexistent`."), s').
Proof. eexists. vm_compute. reflexivity. Qed.

Example cleanupPath_query :
  cleanupPath "/src/a.js?query#x" = "/src/a.js".
Proof. reflexivity. Qed.

Example cleanupPath_hash :
  cleanupPath (String "a" (String "000" (String "#" "b")))
  = "a#b".
Proof. reflexivity. Qed.

(** The walk stops one level below the root: a directory directly under the
    root is not compared with the listing of the root's child it lives
    in. *)
Example second_level_not_compared :
  exists s',
    @verify ascii_unicode exampleDisk (enough "/home/user/notes.txt")
      "/home/user/notes.txt" freshState
    = Some (Confirmed, s')
    /\ readdirCalls s' = ["/home/user"].
Proof. eexists. split; vm_compute; reflexivity. Qed.

(** ** The hooks *)


(** A normalization that works code unit by code unit and neither makes nor
    unmakes a [/] does not reach across a path separator: the last segment
    of the normal form is the normal form of the last segment. *)
Lemma length_map_string (f : ascii -> ascii) (s : string) :
  String.length (map_string f s) = String.length s.
Proof. induction s as [|c s IH]; simpl; [done | by rewrite IH]. Qed.

Lemma get_map_string (f : ascii -> ascii) (s : string) (i : nat) :
  String.get i (map_string f s) = f <$> String.get i s.
Proof.
  revert i. induction s as [|c s IH]; intros [|i]; simpl; auto.
Qed.

Lemma substring_map_string (f : ascii -> ascii) (a b : nat) (s : string) :
  String.substring a b (map_string f s) = map_string f (String.substring a b s).
Proof.
  revert a b.
  induction s as [|c s IH]; intros [|a] [|b]; simpl; rewrite ?IH; auto.
Qed.

Lemma isSlashAt_map_string (f : ascii -> ascii) (s : string) (i : nat) :
  (forall c, f c = "/"%char <-> c = "/"%char) ->
  isSlashAt (map_string f s) i = isSlashAt s i.
Proof.
  intros Hf. unfold isSlashAt. rewrite get_map_string.
  destruct (String.get i s) as [c|]; simpl; [|done].
  apply bool_decide_ext, Hf.
Qed.

Lemma basename_scan_map_string (f : ascii -> ascii) (s : string) (n : nat)
    (m : bool) (e : option nat) :
  (forall c, f c = "/"%char <-> c = "/"%char) ->
  Path.basename_scan (map_string f s) n m e = Path.basename_scan s n m e.
Proof.
  intros Hf. revert m e. induction n as [|n IH]; intros m e; simpl; [done|].
  rewrite isSlashAt_map_string by done.
  destruct (isSlashAt s n); [by destruct m; simpl; rewrite ?IH|].
  destruct e; by rewrite IH.
Qed.

Lemma basename_map_string (f : ascii -> ascii) (p : string) :
  (forall c, f c = "/"%char <-> c = "/"%char) ->
  Path.basename (map_string f p) = map_string f (Path.basename p).
Proof.
  intros Hf. unfold Path.basename.
  rewrite length_map_string, basename_scan_map_string by done.
  destruct (Path.basename_scan p (String.length p) true None) as [st [e|]];
    [|done].
  unfold slice. apply substring_map_string.
Qed.

Lemma angstromNFC_slash (c : ascii) :
  angstromNFC c = "/"%char <-> c = "/"%char.
Proof.
  unfold angstromNFC. case_bool_decide as Hc; [|done].
  subst c. split; intros H; by vm_compute in H.
Qed.

Lemma angstrom_segments (p : string) :
  Path.basename (@normalizeNFC angstrom_unicode p)
  = @normalizeNFC angstrom_unicode (Path.basename p).
Proof. apply basename_map_string, angstromNFC_slash. Qed.



(** The request of the example is spelled with the sign and carries a query;
    the directory has the letter. The hook lets it pass, and it would not
    without normalization. *)
Example angstrom_request_passes :
  (exists s',
     @onAfterResolve angstrom_unicode labDisk 2 labRequest freshState
     = Some (DoneNullData, s'))
  /\ (exists s',
        @fileExistsWithCase ascii_unicode labDisk 2
          (cleanupPath (requestedResource labRequest)) freshState
        = Some (Some "!nonexistent", s')).
Proof. split; eexists; vm_compute; reflexivity. Qed.

(** ** The event loop *)

Local Open Scope list_scope.

Lemma mutexOf_setMutex (dir dir' : string) (m : mutex) (p : plugin) :
  mutexOf dir' (setMutex dir m p) =
  if decide (dir = dir') then m else mutexOf dir' p.
Proof.
  unfold mutexOf, setMutex; simpl. case_decide as Hd.
  - subst. by rewrite lookup_insert_eq.
  - by rewrite lookup_insert_ne.
Qed.

Lemma mutexOf_ensureMutex (dir dir' : string) (p : plugin) :
  mutexOf dir' (ensureMutex dir p) = mutexOf dir' p.
Proof.
  unfold ensureMutex, mutexOf.
  destruct (visitedPathMutexRecord p !! dir) eqn:E; [done|]. simpl.
  destruct (decide (dir = dir')) as [<- | Hne].
  - by rewrite lookup_insert_eq, E.
  - by rewrite lookup_insert_ne.
Qed.

Lemma filter_removeFirst_in (P : string * nat -> Prop)
    `{forall x, Decision (P x)} (x : string * nat) (l : list (string * nat)) :
  P x -> filter P (removeFirst x l) = removeFirst x (filter P l).
Proof.
  intros Hx. induction l as [|y l IH]; simpl; [done|].
  destruct (decide (x = y)) as [<- | Hne].
  - rewrite filter_cons_True by done. simpl. by rewrite decide_True.
  - rewrite !filter_cons. destruct (decide (P y)); simpl.
    + rewrite decide_False by done. by rewrite IH.
    + done.
Qed.

Lemma filter_removeFirst_out (P : string * nat -> Prop)
    `{forall x, Decision (P x)} (x : string * nat) (l : list (string * nat)) :
  ~ P x -> filter P (removeFirst x l) = filter P l.
Proof.
  intros Hx. induction l as [|y l IH]; simpl; [done|].
  destruct (decide (x = y)) as [<- | Hne].
  - by rewrite filter_cons_False.
  - rewrite !filter_cons. destruct (decide (P y)); by rewrite IH.
Qed.

Lemma acquire_holder (c : nat) (m : mutex) :
  (holder m = None -> waiters m = []) ->
  acquire c m =
  match holder m with
  | None => {| holder := Some (c, Granted); waiters := [] |}
  | Some h => {| holder := Some h; waiters := waiters m ++ [c] |}
  end.
Proof.
  intros Hfree. unfold acquire, dispatch; simpl.
  destruct (holder m) as [h|]; [by destruct (waiters m ++ [c])%list|].
  by rewrite Hfree.
Qed.

Lemma release_holder (m : mutex) :
  release m =
  match waiters m with
  | [] => {| holder := None; waiters := [] |}
  | c :: rest => {| holder := Some (c, Granted); waiters := rest |}
  end.
Proof. unfold release, dispatch; simpl. by destruct (waiters m). Qed.

Lemma passStart_consistent : consistent passStart.
Proof.
  split; unfold passStart, readsOf, pendingOf, mutexOf; simpl; intros;
    try done.
  match goal with Hin : _ ∈ [] |- _ => by apply elem_of_nil in Hin end.
Qed.

Lemma filter_snoc_dir (dir d : string) (l : list string) :
  length (filter (fun x => x = dir) (l ++ [d])) =
  length (filter (fun x => x = dir) l) + (if decide (d = dir) then 1 else 0).
Proof.
  rewrite filter_app, length_app. f_equal.
  rewrite filter_cons, filter_nil. by destruct (decide (d = dir)).
Qed.

Ltac norm :=
  unfold readsOf, pendingOf in *; simpl in *;
  repeat first
    [ rewrite mutexOf_setMutex
    | rewrite mutexOf_ensureMutex
    | rewrite pathCache_ensureMutex
    | rewrite fsOperations_ensureMutex ].

Section Loop.
Context `{U : Unicode}.

Lemma doCall_consistent (dir : string) (w : world) :
  consistent w -> consistent (doCall dir w).
Proof.
  intros [Hreads Hpend Huncached Hdeliv Hops Hfree Hsettled Hcalls].
  unfold doCall. rewrite pathCache_ensureMutex.
  destruct (pathCache (this (node w)) !! dir) as [v|] eqn:Hcache.
  - split; norm; try done.
    + intros d; norm; apply Hpend.
    + intros d c; norm; apply Huncached.
    + intros c d v' [Hin | Hin%list_elem_of_singleton]%elem_of_app;
        [by eauto | by simplify_eq].
    + intros d; norm; apply Hfree.
    + intros d c; norm. intros Hd. destruct (Hsettled d c Hd) as [v' Hv'].
      exists v'. apply elem_of_app. by left.
    + intros c d Hc; norm.
      apply lookup_snoc_Some in Hc as [[_ Hc] | [-> <-]].
      * destruct (Hcalls c d Hc) as [[v' Hv'] | Hrest]; [|by right].
        left. exists v'. apply elem_of_app. by left.
      * left. exists v. apply elem_of_app. right.
        by apply list_elem_of_singleton.
  - rewrite mutexOf_ensureMutex.
    rewrite acquire_holder by apply Hfree.
    split; norm; try done.
    + intros d; norm. rewrite Hpend. case_decide as Hd; [subst d|done].
      by destruct (holder (mutexOf dir (this (node w)))) as [[? []]|].
    + intros d c; norm. case_decide as Hd; [subst d|by apply Huncached].
      destruct (holder (mutexOf dir (this (node w)))) as [h|] eqn:Hh;
        simpl; [|done]. intros [= ->]. by eapply Huncached.
    + intros d; norm. case_decide as Hd; [subst d|by apply Hfree].
      by destruct (holder (mutexOf dir (this (node w)))).
    + intros d c; norm. case_decide as Hd; [subst d|by apply Hsettled].
      destruct (holder (mutexOf dir (this (node w)))) as [h|] eqn:Hh;
        simpl; [|done]. intros [= ->]. by eapply Hsettled.
    + intros c d Hc; norm.
      apply lookup_snoc_Some in Hc as [[_ Hc] | [-> <-]].
      * destruct (Hcalls c d Hc) as [Hv | [Hw | [ph Hh]]]; [by left|..];
          case_decide as Hd; try subst d; try (by eauto).
        -- right. left.
           destruct (holder (mutexOf dir (this (node w)))) as [h|] eqn:Hh;
             simpl; [apply elem_of_app; by left|].
           rewrite (Hfree _ Hh) in Hw. by apply elem_of_nil in Hw.
        -- right. right. rewrite Hh. simpl. by eauto.
      * right. rewrite decide_True by done.
        destruct (holder (mutexOf dir (this (node w)))) as [h|] eqn:Hh;
          simpl; [left|right; by eauto].
        apply elem_of_app. right. by apply list_elem_of_singleton.
Qed.

Lemma doRun_consistent (dir : string) (w w' : world) :
  consistent w -> doRun dir w = Some w' -> consistent w'.
Proof.
  intros [Hreads Hpend Huncached Hdeliv Hops Hfree Hsettled Hcalls].
  unfold doRun.
  destruct (holder (mutexOf dir (this (node w)))) as [[c []]|] eqn:Hh;
    try done.
  assert (Hnone : filter (fun x : string * nat => x.1 = dir) (inflight w) = []).
  { unfold pendingOf in Hpend. by rewrite Hpend, Hh. }
  unfold setPhase. rewrite Hh. simpl.
  destruct (pathCache (this (node w)) !! dir) as [v|] eqn:Hcache;
    intros [= <-].
  - split; norm; try done.
    + intros d; norm. rewrite Hpend. case_decide as Hd; [subst d|done].
      by rewrite Hh.
    + intros d c'; norm. case_decide as Hd; [subst d; by simpl|].
      by apply Huncached.
    + intros c' d v' [Hin | Hin%list_elem_of_singleton]%elem_of_app;
        [by eauto | by simplify_eq].
    + intros d; norm. case_decide as Hd; [by subst d|by apply Hfree].
    + intros d c'; norm. case_decide as Hd.
      * subst d. simpl. intros [= <-]. exists v. apply elem_of_app. right.
        by apply list_elem_of_singleton.
      * intros Hd'. destruct (Hsettled d c' Hd') as [v' Hv'].
        exists v'. apply elem_of_app. by left.
    + intros c' d Hc; norm.
      destruct (Hcalls c' d Hc) as [[v' Hv'] | [Hw | [ph Hph]]].
      * left. exists v'. apply elem_of_app. by left.
      * right. left. by case_decide; [subst d|].
      * right. right. case_decide as Hd; [subst d|by eauto].
        rewrite Hh in Hph. simplify_eq. simpl. by eauto.
  - split; norm; try done.
    + intros d. rewrite filter_snoc_dir, filter_app, length_app, Hreads.
      rewrite filter_cons, filter_nil. simpl.
      destruct (decide (dir = d)) as [<- | Hne]; simpl; lia.
    + intros d; norm. rewrite filter_app, filter_cons, filter_nil. simpl.
      destruct (decide (dir = d)) as [<- | Hne]; simpl.
      * by rewrite Hnone.
      * rewrite app_nil_r. apply Hpend.
    + intros d c'; norm. case_decide as Hd; [by subst d|].
      by apply Huncached.
    + rewrite length_app. simpl. lia.
    + intros d; norm. case_decide as Hd; [by subst d|by apply Hfree].
    + intros d c'; norm. case_decide as Hd; [by subst d|].
      by apply Hsettled.
    + intros c' d Hc; norm.
      destruct (Hcalls c' d Hc) as [Hv | [Hw | [ph Hph]]]; [by left|..].
      * right. left. by case_decide; [subst d|].
      * right. right. case_decide as Hd; [subst d|by eauto].
        rewrite Hh in Hph. simplify_eq. simpl. by eauto.
Qed.

Lemma doRelease_consistent (dir : string) (w w' : world) :
  consistent w -> doRelease dir w = Some w' -> consistent w'.
Proof.
  intros [Hreads Hpend Huncached Hdeliv Hops Hfree Hsettled Hcalls].
  unfold doRelease.
  destruct (holder (mutexOf dir (this (node w)))) as [[c []]|] eqn:Hh;
    try done.
  intros [= <-]. rewrite release_holder.
  split; norm; try done.
  - intros d; norm. rewrite Hpend. case_decide as Hd; [subst d|done].
    rewrite Hh. by destruct (waiters (mutexOf dir (this (node w)))).
  - intros d c'; norm. case_decide as Hd; [subst d|by apply Huncached].
    by destruct (waiters (mutexOf dir (this (node w)))).
  - intros d; norm. case_decide as Hd; [subst d|by apply Hfree].
    by destruct (waiters (mutexOf dir (this (node w)))).
  - intros d c'; norm. case_decide as Hd; [subst d|by apply Hsettled].
    by destruct (waiters (mutexOf dir (this (node w)))).
  - intros c' d Hc; norm.
    destruct (Hcalls c' d Hc) as [Hv | [Hw | [ph Hph]]]; [by left|..];
      (case_decide as Hd; [subst d|by eauto]).
    + destruct (waiters (mutexOf dir (this (node w)))) as [|h rest];
        [by apply elem_of_nil in Hw|].
      apply elem_of_cons in Hw as [-> | Hw]; simpl; by eauto.
    + rewrite Hh in Hph. simplify_eq. left. by eapply Hsettled.
Qed.

Lemma inflight_holder (dir : string) (c : nat) (w : world) :
  consistent w -> (dir, c) ∈ inflight w ->
  holder (mutexOf dir (this (node w))) = Some (c, Reading).
Proof.
  intros Hw Hin.
  assert (Hp : (dir, c) ∈ pendingOf dir w).
  { unfold pendingOf. by apply list_elem_of_filter. }
  rewrite (pending_holder w Hw) in Hp.
  destruct (holder (mutexOf dir (this (node w)))) as [[c' []]|];
    try by apply elem_of_nil in Hp.
  apply list_elem_of_singleton in Hp. by simplify_eq.
Qed.

Lemma doReturn_consistent (dir : string) (c : nat)
    (answer : option (list string)) (w w' : world) :
  consistent w -> doReturn dir c answer w = Some w' -> consistent w'.
Proof.
  intros Hw. unfold doReturn. case_bool_decide as Hin; [|done].
  intros [= <-].
  pose proof (inflight_holder dir c w Hw Hin) as Hh.
  destruct Hw as [Hreads Hpend Huncached Hdeliv Hops Hfree Hsettled Hcalls].
  pose proof (Huncached _ _ Hh) as Hcache.
  assert (Hnil : filter (fun x : string * nat => x.1 = dir)
                   (removeFirst (dir, c) (inflight w)) = []).
  { rewrite filter_removeFirst_in by done. unfold pendingOf in Hpend.
    rewrite Hpend, Hh. simpl. by rewrite decide_True. }
  assert (Hm : resolvePromise c
                 (mutexOf dir (storeListing dir (listingOf answer)
                                 (this (node w)))) =
               {| holder := Some (c, Settled);
                  waiters := waiters (mutexOf dir (this (node w))) |}).
  { unfold resolvePromise, setPhase.
    change (mutexOf dir (storeListing dir (listingOf answer) (this (node w))))
      with (mutexOf dir (this (node w))).
    rewrite Hh. by rewrite decide_True. }
  rewrite Hm. clear Hm.
  split; norm; try done.
  - intros d. destruct (decide (dir = d)) as [<- | Hne].
    + rewrite lookup_insert_eq, Hnil, Hreads, Hcache, Hpend, Hh. done.
    + rewrite lookup_insert_ne by done.
      rewrite filter_removeFirst_out by (simpl; congruence). apply Hreads.
  - intros d; norm. case_decide as Hd; [subst d; by rewrite Hnil|].
    rewrite filter_removeFirst_out by (simpl; congruence). apply Hpend.
  - intros d c'; norm. case_decide as Hd; [by subst d|].
    rewrite lookup_insert_ne by done. by apply Huncached.
  - intros c' d v' [Hin' | Hin'%list_elem_of_singleton]%elem_of_app.
    + apply Hdeliv in Hin'. destruct (decide (dir = d)) as [<- | Hne];
        [congruence|]. by rewrite lookup_insert_ne.
    + simplify_eq. by rewrite lookup_insert_eq.
  - intros d; norm. case_decide as Hd; [by subst d|by apply Hfree].
  - intros d c'; norm. case_decide as Hd.
    + subst d. simpl. intros [= <-]. exists (listingOf answer).
      apply elem_of_app. right. by apply list_elem_of_singleton.
    + intros Hd'. destruct (Hsettled d c' Hd') as [v' Hv'].
      exists v'. apply elem_of_app. by left.
  - intros c' d Hc; norm.
    destruct (Hcalls c' d Hc) as [[v' Hv'] | [Hwt | [ph Hph]]].
    + left. exists v'. apply elem_of_app. by left.
    + right. left. by case_decide; [subst d|].
    + right. right. case_decide as Hd; [subst d|by eauto].
      rewrite Hh in Hph. simplify_eq. simpl. by eauto.
Qed.

Lemma step_consistent (e : event) (w w' : world) :
  consistent w -> step e w = Some w' -> consistent w'.
Proof.
  destruct e as [dir | dir | dir c answer | dir]; simpl; intros Hw Hs.
  - injection Hs as <-. by apply doCall_consistent.
  - by eapply doRun_consistent.
  - by eapply doReturn_consistent.
  - by eapply doRelease_consistent.
Qed.

Lemma reachable_consistent (w : world) : reachable w -> consistent w.
Proof.
  induction 1 as [|w e w' _ IH Hs]; [apply passStart_consistent|].
  by eapply step_consistent.
Qed.

Lemma run_consistent (schedule : list event) (w w' : world) :
  consistent w -> run schedule w = Some w' -> consistent w'.
Proof.
  revert w. induction schedule as [|e rest IH]; intros w Hw; simpl.
  - by intros [= <-].
  - destruct (step e w) as [w1|] eqn:Hs; [|done].
    apply IH. by eapply step_consistent.
Qed.

Lemma run_reachable (schedule : list event) (w w' : world) :
  reachable w -> run schedule w = Some w' -> reachable w'.
Proof.
  revert w. induction schedule as [|e rest IH]; intros w Hw; simpl.
  - by intros [= <-].
  - destruct (step e w) as [w1|] eqn:Hs; [|done].
    apply IH. by eapply reachable_step.
Qed.

Lemma run_app (s1 s2 : list event) (w : world) :
  run (s1 ++ s2) w = run s1 w ≫= run s2.
Proof.
  revert w. induction s1 as [|e s1 IH]; intros w; simpl; [done|].
  by destruct (step e w).
Qed.

(** The worlds of a pass are the ends of the schedules that start it. *)
Lemma reachable_run (w : world) :
  reachable w <-> exists schedule, run schedule passStart = Some w.
Proof.
  split.
  - induction 1 as [|w e w' _ [schedule IH] Hs]; [by exists []|].
    exists (schedule ++ [e]). rewrite run_app, IH. simpl. by rewrite Hs.
  - intros [schedule Hr]. eapply run_reachable; [constructor | done].
Qed.

(** At most one read per directory, in every world of the pass. *)
Lemma consistent_reads_le (dir : string) (w : world) :
  consistent w -> readsOf dir w <= 1.
Proof.
  intros Hw. rewrite (reads_counted w Hw), (pending_holder w Hw).
  destruct (pathCache (this (node w)) !! dir) eqn:Hc;
    destruct (holder (mutexOf dir (this (node w)))) as [[c []]|] eqn:Hh;
    simpl; try lia.
  apply (reading_uncached w Hw) in Hh. congruence.
Qed.

Lemma consistent_reads_cached (dir : string) (v : list string) (w : world) :
  consistent w -> pathCache (this (node w)) !! dir = Some v ->
  readsOf dir w = 1.
Proof.
  intros Hw Hc. rewrite (reads_counted w Hw), (pending_holder w Hw), Hc.
  destruct (holder (mutexOf dir (this (node w)))) as [[c []]|] eqn:Hh;
    simpl; try lia.
  apply (reading_uncached w Hw) in Hh. congruence.
Qed.

(** A cache entry, once there, survives every event. *)
Lemma step_cache_stable (e : event) (dir : string) (v : list string)
    (w w' : world) :
  consistent w -> step e w = Some w' ->
  pathCache (this (node w)) !! dir = Some v ->
  pathCache (this (node w')) !! dir = Some v.
Proof.
  intros Hw Hs Hc. destruct e as [d | d | d c answer | d]; simpl in Hs.
  - injection Hs as <-. unfold doCall. rewrite pathCache_ensureMutex.
    destruct (pathCache (this (node w)) !! d); simpl;
      by rewrite pathCache_ensureMutex.
  - unfold doRun in Hs.
    destruct (holder (mutexOf d (this (node w)))) as [[c []]|]; try done.
    by destruct (pathCache (this (node w)) !! d); injection Hs as <-.
  - unfold doReturn in Hs. case_bool_decide as Hin; [|done].
    injection Hs as <-. simpl.
    destruct (decide (d = dir)) as [-> | Hne];
      [|by rewrite lookup_insert_ne].
    pose proof (inflight_holder dir c w Hw Hin) as Hh.
    apply (reading_uncached w Hw) in Hh. congruence.
  - unfold doRelease in Hs.
    destruct (holder (mutexOf d (this (node w)))) as [[c []]|]; try done.
    by injection Hs as <-.
Qed.

Lemma run_cache_stable (schedule : list event) (dir : string)
    (v : list string) (w w' : world) :
  consistent w -> run schedule w = Some w' ->
  pathCache (this (node w)) !! dir = Some v ->
  pathCache (this (node w')) !! dir = Some v.
Proof.
  revert w. induction schedule as [|e rest IH]; intros w Hw; simpl.
  - by intros [= <-].
  - destruct (step e w) as [w1|] eqn:Hs; [|done]. intros Hr Hc.
    apply (IH w1); [by eapply step_consistent | done |].
    by eapply step_cache_stable.
Qed.

(** The history of the file system only grows. *)
Lemma step_readdirCalls (e : event) (w w' : world) :
  step e w = Some w' ->
  exists more, readdirCalls (node w') = readdirCalls (node w) ++ more.
Proof.
  destruct e as [d | d | d c answer | d]; simpl; intros Hs.
  - injection Hs as <-. exists []. rewrite app_nil_r. unfold doCall.
    by destruct (pathCache (ensureMutex d (this (node w))) !! d).
  - unfold doRun in Hs.
    destruct (holder (mutexOf d (this (node w)))) as [[c []]|]; try done.
    destruct (pathCache (this (node w)) !! d); injection Hs as <-; simpl.
    + exists []. by rewrite app_nil_r.
    + by exists [d].
  - unfold doReturn in Hs. case_bool_decide; [|done]. injection Hs as <-.
    exists []. by rewrite app_nil_r.
  - unfold doRelease in Hs.
    destruct (holder (mutexOf d (this (node w)))) as [[c []]|]; try done.
    injection Hs as <-. exists []. by rewrite app_nil_r.
Qed.

Lemma run_readdirCalls (schedule : list event) (w w' : world) :
  run schedule w = Some w' ->
  exists more, readdirCalls (node w') = readdirCalls (node w) ++ more.
Proof.
  revert w. induction schedule as [|e rest IH]; intros w; simpl.
  - intros [= <-]. exists []. by rewrite app_nil_r.
  - destruct (step e w) as [w1|] eqn:Hs; [|done]. intros Hr.
    destruct (step_readdirCalls _ _ _ Hs) as [m1 H1].
    destruct (IH _ Hr) as [m2 H2]. exists (m1 ++ m2).
    by rewrite H2, H1, app_assoc.
Qed.

(** Once a directory is cached, no later event reads it again. *)
Lemma run_no_reread (schedule : list event) (dir : string)
    (v : list string) (w w' : world) :
  consistent w -> run schedule w = Some w' ->
  pathCache (this (node w)) !! dir = Some v ->
  exists more,
    readdirCalls (node w') = readdirCalls (node w) ++ more
    /\ dir ∉ more.
Proof.
  intros Hw Hr Hc. destruct (run_readdirCalls _ _ _ Hr) as [more Hm].
  exists more. split; [done|]. intros Hin.
  pose proof (run_consistent _ _ _ Hw Hr) as Hw'.
  pose proof (run_cache_stable _ _ _ _ _ Hw Hr Hc) as Hc'.
  pose proof (consistent_reads_cached _ _ _ Hw Hc) as H1.
  pose proof (consistent_reads_cached _ _ _ Hw' Hc') as H2.
  unfold readsOf in H1, H2. rewrite Hm, filter_app, length_app, H1 in H2.
  assert (Hpos : 0 < length (filter (fun d => d = dir) more)).
  { apply list_elem_of_split in Hin as (l1 & l2 & ->).
    rewrite filter_app, filter_cons_True, length_app by done. simpl. lia. }
  lia.
Qed.

(** The next event of a busy directory is enabled and works the backlog
    off. *)
Lemma nextEvent_enabled (fs : inputFileSystem) (dir : string) (e : event)
    (w : world) :
  consistent w -> nextEvent fs dir w = Some e ->
  exists w', step e w = Some w' /\ backlog dir w' < backlog dir w.
Proof.
  intros Hw. unfold nextEvent, backlog.
  destruct (holder (mutexOf dir (this (node w)))) as [[c []]|] eqn:Hh;
    intros [= <-]; simpl.
  - unfold doRun. rewrite Hh.
    destruct (pathCache (this (node w)) !! dir); eexists; (split; [done|]);
      norm; rewrite decide_True by done; unfold setPhase; rewrite Hh;
      simpl; lia.
  - assert (Hin : (dir, c) ∈ inflight w).
    { pose proof (pending_holder w Hw dir) as Hp. rewrite Hh in Hp.
      assert (Hin : (dir, c) ∈ pendingOf dir w).
      { rewrite Hp. by apply list_elem_of_singleton. }
      unfold pendingOf in Hin. by apply list_elem_of_filter in Hin as [_ ?]. }
    unfold doReturn. rewrite bool_decide_eq_true_2 by done.
    eexists; split; [done|]. norm. rewrite decide_True by done.
    unfold resolvePromise.
    change (mutexOf dir (storeListing dir (listingOf (fs dir)) (this (node w))))
      with (mutexOf dir (this (node w))).
    rewrite Hh, decide_True by done. unfold setPhase. rewrite Hh. simpl. lia.
  - unfold doRelease. rewrite Hh. eexists; split; [done|]. norm.
    rewrite decide_True by done. rewrite release_holder.
    destruct (waiters (mutexOf dir (this (node w)))); simpl; lia.
Qed.

Lemma nextEvent_None (fs : inputFileSystem) (dir : string) (w : world) :
  nextEvent fs dir w = None <-> idle dir w.
Proof.
  unfold nextEvent, idle.
  by destruct (holder (mutexOf dir (this (node w)))) as [[c []]|].
Qed.

(** Whatever the file system answers, the requests queued for a directory
    can be worked off, in at most [backlog] events. *)
Lemma drain_idle (fs : inputFileSystem) (dir : string) (n : nat)
    (w : world) :
  consistent w -> backlog dir w <= n ->
  exists schedule w',
    drain fs dir n w = Some w' /\ run schedule w = Some w'
    /\ length schedule <= backlog dir w /\ idle dir w'.
Proof.
  revert w. induction n as [|n IH]; intros w Hw Hn.
  - exists [], w. simpl. repeat split; [lia|].
    unfold backlog, idle in *.
    by destruct (holder (mutexOf dir (this (node w)))) as [[c []]|];
      simpl in Hn; try lia.
  - simpl. destruct (nextEvent fs dir w) as [e|] eqn:He.
    + destruct (nextEvent_enabled _ _ _ _ Hw He) as (w1 & Hs & Hlt).
      rewrite Hs.
      destruct (IH w1) as (sch & w' & Hd & Hr & Hlen & Hidle);
        [by eapply step_consistent | lia |].
      exists (e :: sch), w'. simpl. rewrite Hs. repeat split; try done. lia.
    + exists [], w. simpl. repeat split; [lia|]. by apply nextEvent_None in He.
Qed.

(** When nobody holds the mutex of a directory, every call made for it has
    been answered. *)
Lemma idle_all_delivered (dir : string) (c : nat) (w : world) :
  consistent w -> idle dir w -> calls w !! c = Some dir ->
  exists v, (c, dir, v) ∈ delivered w.
Proof.
  intros Hw Hidle Hc. unfold idle in Hidle.
  destruct (calls_accounted w Hw c dir Hc) as [Hv | [Hwt | [ph Hph]]];
    [done | | congruence].
  rewrite (free_empty w Hw dir Hidle) in Hwt. by apply elem_of_nil in Hwt.
Qed.

Lemma removeFirst_snoc (x : string * nat) (l : list (string * nat)) :
  x ∉ l -> removeFirst x (l ++ [x]) = l.
Proof.
  induction l as [|y l IH]; simpl; intros Hx.
  - by rewrite decide_True.
  - apply not_elem_of_cons in Hx as [Hne Hx].
    rewrite decide_False by done. by rewrite IH.
Qed.

Lemma ensureMutex_idle_record (dir : string) (p : plugin) :
  holder (mutexOf dir p) = None -> waiters (mutexOf dir p) = [] ->
  <[dir := newMutex]> (visitedPathMutexRecord (ensureMutex dir p))
  = visitedPathMutexRecord (ensureMutex dir p).
Proof.
  unfold mutexOf, ensureMutex. intros Hh Hw.
  destruct (visitedPathMutexRecord p !! dir) as [[h ws]|] eqn:E; simpl in *.
  - subst. by apply insert_id.
  - by rewrite insert_insert_eq.
Qed.

(** The run of one request, [getFilenamesInDir] above, is the event loop
    with nobody else at the directory's mutex: the call, and then at most
    three events. *)
Lemma getFilenamesInDir_schedule (fs : inputFileSystem) (dir : string)
    (w : world) :
  consistent w -> idle dir w ->
  exists w',
    drain fs dir 3 (doCall dir w) = Some w'
    /\ node w' = (getFilenamesInDir fs dir (node w)).2
    /\ delivered w'
       = delivered w
         ++ [(length (calls w), dir, (getFilenamesInDir fs dir (node w)).1)]
    /\ inflight w' = inflight w
    /\ idle dir w'.
Proof.
  intros Hw Hidle. unfold idle in Hidle.
  pose proof (free_empty w Hw dir Hidle) as Hws.
  assert (Hnotin : forall c, (dir, c) ∉ inflight w).
  { intros c Hin. pose proof (inflight_holder dir c w Hw Hin). congruence. }
  unfold getFilenamesInDir, doCall. rewrite pathCache_ensureMutex.
  destruct (pathCache (this (node w)) !! dir) as [v|] eqn:Hcache.
  - eexists. split; [simpl; unfold nextEvent; norm; by rewrite Hidle|].
    split; [done|]. split; [done|]. split; [done|].
    unfold idle. simpl. by rewrite mutexOf_ensureMutex.
  - rewrite mutexOf_ensureMutex, acquire_holder, Hidle by done.
    set (p := ensureMutex dir (this (node w))).
    eexists. split.
    { assert (Hin : forall l : list (string * nat),
                bool_decide ((dir, length (calls w))
                             ∈ l ++ [(dir, length (calls w))]) = true).
      { intros l. apply bool_decide_eq_true_2, elem_of_app. right.
        by apply list_elem_of_singleton. }
      assert (Hp : pathCache p !! dir = None)
        by (unfold p; by rewrite pathCache_ensureMutex).
      repeat
        (progress
           (unfold nextEvent, doRun, doReturn, doRelease, resolvePromise,
              setPhase, mutexOf, setMutex, storeListing, countRead;
            cbn [drain step node this holder waiters inflight delivered
                 calls readdirCalls pathCache visitedPathMutexRecord
                 fsOperations fst snd fmap option_fmap option_map default
                 from_option id];
            rewrite ?lookup_insert_eq, ?Hp, ?Hin, ?decide_True by done)).
      reflexivity. }
    cbn [node delivered inflight readdirCalls this fst snd].
    rewrite removeFirst_snoc by apply Hnotin.
    split; [|split; [done|]; split; [done|]; unfold idle, mutexOf;
              cbn [node this visitedPathMutexRecord];
              by rewrite lookup_insert_eq].
    unfold storeListing, countRead.
    cbn [pathCache visitedPathMutexRecord fsOperations]. do 2 f_equal.
    rewrite !insert_insert_eq. rewrite release_holder. cbn [waiters].
    fold newMutex. by apply ensureMutex_idle_record.
Qed.

End Loop.

(** ** The cache *)

(** C1. In every world of a build pass, whatever the order of the events and
    however many requests ask for a directory before its listing is cached,
    at most one [fs.readdir] has been issued for it; every caller that has
    been answered received the cache entry, so all of them received the same
    value, and by then exactly one read was issued. Whatever the file
    system answers, the events left for the directory can run, no more than
    [backlog] of them, and then every request made for it has been answered
    from the entry of that one read. *)
Theorem one_read_per_directory `{U : Unicode} (schedule : list event)
    (w : world) (dir : string) :
  run schedule passStart = Some w ->
  readsOf dir w <= 1
  /\ (forall c v, (c, dir, v) ∈ delivered w ->
        pathCache (this (node w)) !! dir = Some v /\ readsOf dir w = 1)
  /\ (forall c1 v1 c2 v2,
        (c1, dir, v1) ∈ delivered w -> (c2, dir, v2) ∈ delivered w -> v1 = v2)
  /\ fsOperations (this (node w)) = length (readdirCalls (node w))
  /\ (forall fs : inputFileSystem, exists rest w',
        run rest w = Some w'
        /\ length rest <= backlog dir w
        /\ idle dir w'
        /\ readsOf dir w' <= 1
        /\ forall c, calls w !! c = Some dir ->
             exists v, (c, dir, v) ∈ delivered w'
                       /\ pathCache (this (node w')) !! dir = Some v
                       /\ readsOf dir w' = 1).
Proof.
  intros Hrun.
  assert (Hw : consistent w).
  { eapply run_consistent; [apply passStart_consistent | done]. }
  split; [by apply consistent_reads_le|].
  split.
  { intros c v Hin. pose proof (delivered_cached w Hw _ _ _ Hin) as Hc.
    split; [done | by eapply consistent_reads_cached]. }
  split.
  { intros c1 v1 c2 v2 H1 H2.
    apply (delivered_cached w Hw) in H1, H2. congruence. }
  split; [apply (operations_counted w Hw)|].
  intros fs.
  destruct (drain_idle fs dir (backlog dir w) w Hw (le_n _))
    as (rest & w' & _ & Hrest & Hlen & Hidle).
  pose proof (run_consistent _ _ _ Hw Hrest) as Hw'.
  exists rest, w'. repeat split; try done.
  - by apply consistent_reads_le.
  - intros c Hc.
    assert (Hc' : calls w' !! c = Some dir).
    { clear -Hrest Hc. revert w Hrest Hc.
      induction rest as [|e rest IH]; intros w; simpl.
      - by intros [= <-].
      - destruct (step e w) as [w1|] eqn:Hs; [|done]. intros Hr Hc.
        apply (IH w1 Hr).
        destruct e as [d | d | d c' answer | d]; simpl in Hs.
        + injection Hs as <-. unfold doCall.
          destruct (pathCache (ensureMutex d (this (node w))) !! d); simpl;
            by apply lookup_app_l_Some.
        + unfold doRun in Hs.
          destruct (holder (mutexOf d (this (node w)))) as [[? []]|];
            try done.
          by destruct (pathCache (this (node w)) !! d); injection Hs as <-.
        + unfold doReturn in Hs. case_bool_decide; [|done].
          by injection Hs as <-.
        + unfold doRelease in Hs.
          destruct (holder (mutexOf d (this (node w)))) as [[? []]|];
            try done.
          by injection Hs as <-. }
    destruct (idle_all_delivered dir c w' Hw' Hidle Hc') as [v Hv].
    pose proof (delivered_cached w' Hw' _ _ _ Hv) as Hcache.
    exists v. repeat split; try done. by eapply consistent_reads_cached.
Qed.

Lemma one_read_per_directory_witness :
  @run ascii_unicode crowdedSchedule passStart = Some crowdedWorld
  /\ readsOf "/home" crowdedWorld = 1
  /\ length (calls crowdedWorld) = 4
  /\ forall fs : inputFileSystem, exists rest w',
       @run ascii_unicode rest crowdedWorld = Some w'
       /\ length rest <= backlog "/home" crowdedWorld
       /\ idle "/home" w'
       /\ readsOf "/home" w' <= 1
       /\ forall c, calls crowdedWorld !! c = Some "/home"%string ->
            exists v, (c, "/home"%string, v) ∈ delivered w'
                      /\ pathCache (this (node w')) !! "/home"%string = Some v
                      /\ readsOf "/home" w' = 1.
Proof.
  assert (Hrun : @run ascii_unicode crowdedSchedule passStart
                 = Some crowdedWorld) by (vm_compute; reflexivity).
  split; [exact Hrun|]. split; [vm_compute; reflexivity|].
  split; [vm_compute; reflexivity|].
  apply (@one_read_per_directory ascii_unicode crowdedSchedule crowdedWorld
           "/home" Hrun).
Defined.

(** C2. Once a directory has a cache entry in a world of the build pass, a
    call of [getFilenamesInDir] for it hands the stored sequence to its
    callback and leaves the cache, the history of [fs.readdir], the read
    counter and the pending reads as they are; and whatever events follow,
    the entry stays what it is, no [fs.readdir] for the directory is issued
    again, and every caller is handed that same sequence. *)
Theorem cached_entry_is_final `{U : Unicode} (schedule : list event)
    (w : world) (dir : string) (v : list string) :
  run schedule passStart = Some w ->
  pathCache (this (node w)) !! dir = Some v ->
  (delivered (doCall dir w) = delivered w ++ [(length (calls w), dir, v)]
   /\ pathCache (this (node (doCall dir w))) = pathCache (this (node w))
   /\ readdirCalls (node (doCall dir w)) = readdirCalls (node w)
   /\ fsOperations (this (node (doCall dir w))) = fsOperations (this (node w))
   /\ inflight (doCall dir w) = inflight w)
  /\ (forall fs : inputFileSystem,
        (getFilenamesInDir fs dir (node w)).1 = v
        /\ pathCache (this (getFilenamesInDir fs dir (node w)).2)
           = pathCache (this (node w))
        /\ readdirCalls (getFilenamesInDir fs dir (node w)).2
           = readdirCalls (node w)
        /\ fsOperations (this (getFilenamesInDir fs dir (node w)).2)
           = fsOperations (this (node w)))
  /\ (forall later w',
        run later w = Some w' ->
        pathCache (this (node w')) !! dir = Some v
        /\ (exists more,
              readdirCalls (node w') = readdirCalls (node w) ++ more
              /\ dir ∉ more)
        /\ forall c v', (c, dir, v') ∈ delivered w' -> v' = v).
Proof.
  intros Hrun Hcache.
  assert (Hw : consistent w).
  { eapply run_consistent; [apply passStart_consistent | done]. }
  split.
  { unfold doCall. rewrite pathCache_ensureMutex, Hcache. simpl.
    by rewrite pathCache_ensureMutex, fsOperations_ensureMutex. }
  split.
  { intros fs. rewrite (getFilenamesInDir_cached fs dir v) by done. simpl.
    by rewrite pathCache_ensureMutex, fsOperations_ensureMutex. }
  intros later w' Hlater.
  pose proof (run_cache_stable _ _ _ _ _ Hw Hlater Hcache) as Hc'.
  split; [done|]. split; [by eapply run_no_reread|].
  intros c v' Hin.
  pose proof (run_consistent _ _ _ Hw Hlater) as Hw'.
  apply (delivered_cached w' Hw') in Hin. congruence.
Qed.

Lemma cached_entry_is_final_witness :
  @run ascii_unicode servedSchedule passStart = Some servedWorld
  /\ pathCache (this (node servedWorld)) !! "/home"%string = Some ["User"%string]
  /\ forall later w',
       @run ascii_unicode later servedWorld = Some w' ->
       pathCache (this (node w')) !! "/home"%string = Some ["User"%string]
       /\ (exists more,
             readdirCalls (node w')
             = readdirCalls (node servedWorld) ++ more
             /\ "/home"%string ∉ more)
       /\ forall c v', (c, "/home"%string, v') ∈ delivered w' ->
                       v' = ["User"%string].
Proof.
  assert (Hrun : @run ascii_unicode servedSchedule passStart
                 = Some servedWorld) by (vm_compute; reflexivity).
  assert (Hc : pathCache (this (node servedWorld)) !! "/home"%string
               = Some ["User"%string]) by (vm_compute; reflexivity).
  split; [exact Hrun|]. split; [exact Hc|].
  apply (@cached_entry_is_final ascii_unicode servedSchedule servedWorld
           "/home" ["User"%string] Hrun Hc).
Defined.

(** C5. When [fs.readdir] fails for a directory that is not cached, the
    empty sequence is stored as its entry and handed to the caller, exactly
    as for a directory that lists nothing. After that every call for the
    directory gets the empty sequence from the cache without a read,
    whatever the file system would answer now, and a path whose [dirname] it
    is, and at which the walk does not stop, is Nonexistent: the hook lets
    the resolution proceed and no error of the read comes out. In the event
    loop likewise: a failed read stores and delivers the empty sequence, and
    whatever events follow, the entry stays empty and the directory is not
    read again. *)
Theorem failed_read_is_an_empty_listing `{U : Unicode} (fs : inputFileSystem)
    (dir : string) (s : state) :
  pathCache (this s) !! dir = None ->
  fs dir = None ->
  (getFilenamesInDir fs dir s).1 = []
  /\ pathCache (this (getFilenamesInDir fs dir s).2) !! dir = Some []
  /\ readdirCalls (getFilenamesInDir fs dir s).2 = readdirCalls s ++ [dir]
  /\ getFilenamesInDir fs dir s
     = getFilenamesInDir
         (fun d => if decide (d = dir) then Some [] else fs d) dir s
  /\ (forall fs' : inputFileSystem,
        getFilenamesInDir fs' dir (getFilenamesInDir fs dir s).2
        = ([], (getFilenamesInDir fs dir s).2))
  /\ (forall (fs' : inputFileSystem) fuel filepath cd,
        Path.dirname filepath = dir -> atRoot filepath = false ->
        fileExistsWithCase fs' (S fuel) filepath (getFilenamesInDir fs dir s).2
        = Some (Some "!nonexistent"%string, (getFilenamesInDir fs dir s).2)
        /\ verify fs' (S fuel) filepath (getFilenamesInDir fs dir s).2
           = Some (Nonexistent, (getFilenamesInDir fs dir s).2)
        /\ checkFile fs' (S fuel) filepath cd (getFilenamesInDir fs dir s).2
           = Some (proceed cd, (getFilenamesInDir fs dir s).2))
  /\ (forall schedule w c,
        run schedule passStart = Some w -> (dir, c) ∈ inflight w ->
        exists w1,
          step (Return dir c None) w = Some w1
          /\ pathCache (this (node w1)) !! dir = Some []
          /\ (c, dir, []) ∈ delivered w1
          /\ forall later w',
               run later w1 = Some w' ->
               pathCache (this (node w')) !! dir = Some []
               /\ readsOf dir w' = 1
               /\ exists more,
                    readdirCalls (node w') = readdirCalls (node w1) ++ more
                    /\ dir ∉ more).
Proof.
  intros Hcache Hfail.
  rewrite (getFilenamesInDir_miss fs dir s Hcache), Hfail. simpl.
  set (s1 := {| this := storeListing dir [] (countRead (ensureMutex dir (this s)));
                readdirCalls := readdirCalls s ++ [dir] |}).
  assert (Hc1 : pathCache (this s1) !! dir = Some []).
  { simpl. by rewrite lookup_insert_eq. }
  assert (Hagain : forall fs' : inputFileSystem,
             getFilenamesInDir fs' dir s1 = ([], s1)).
  { intros fs'. rewrite (getFilenamesInDir_cached fs' dir [] s1 Hc1).
    f_equal. unfold s1 at 2. f_equal. apply ensureMutex_idem.
    simpl. apply ensureMutex_has. }
  split; [done|]. split; [done|]. split; [done|].
  split.
  { rewrite (getFilenamesInDir_miss _ dir s Hcache).
    by rewrite decide_True. }
  split; [done|].
  split.
  { intros fs' fuel filepath cd Hdir Hroot.
    assert (Hv : verify fs' (S fuel) filepath s1 = Some (Nonexistent, s1)).
    { simpl. rewrite Hroot, Hdir, Hagain.
      rewrite bool_decide_eq_false_2 by apply not_elem_of_nil. done. }
    assert (Hf : fileExistsWithCase fs' (S fuel) filepath s1
                 = Some (Some "!nonexistent"%string, s1)).
    { by rewrite fileExistsWithCase_verify, Hv. }
    repeat split; try done. unfold checkFile. by rewrite Hf. }
  intros schedule w c Hrun Hin.
  assert (Hw : consistent w).
  { eapply run_consistent; [apply passStart_consistent | done]. }
  assert (Hs : exists w1, step (Return dir c None) w = Some w1
                          /\ pathCache (this (node w1)) !! dir = Some []
                          /\ (c, dir, []) ∈ delivered w1).
  { simpl. unfold doReturn. rewrite bool_decide_eq_true_2 by done.
    eexists. split; [done|]. simpl. split; [by rewrite lookup_insert_eq|].
    apply elem_of_app. right. by apply list_elem_of_singleton. }
  destruct Hs as (w1 & Hs & Hc & Hd). exists w1. repeat split; try done.
  - by eapply run_cache_stable; [eapply step_consistent| |].
  - eapply consistent_reads_cached.
    + eapply run_consistent; [by eapply step_consistent | done].
    + by eapply run_cache_stable; [eapply step_consistent| |].
  - by eapply run_no_reread; [eapply step_consistent| |].
Qed.

Lemma failed_read_is_an_empty_listing_witness :
  (@getFilenamesInDir ascii_unicode exampleDisk "/nowhere" freshState).1 = []
  /\ forall (fs' : inputFileSystem) fuel filepath cd,
       Path.dirname filepath = "/nowhere"%string -> atRoot filepath = false ->
       @fileExistsWithCase ascii_unicode fs' (S fuel) filepath
         (@getFilenamesInDir ascii_unicode exampleDisk "/nowhere" freshState).2
       = Some (Some "!nonexistent"%string,
               (@getFilenamesInDir ascii_unicode exampleDisk "/nowhere"
                  freshState).2)
       /\ @verify ascii_unicode fs' (S fuel) filepath
            (@getFilenamesInDir ascii_unicode exampleDisk "/nowhere"
               freshState).2
          = Some (Nonexistent,
                  (@getFilenamesInDir ascii_unicode exampleDisk "/nowhere"
                     freshState).2)
       /\ @checkFile ascii_unicode fs' (S fuel) filepath cd
            (@getFilenamesInDir ascii_unicode exampleDisk "/nowhere"
               freshState).2
          = Some (proceed cd,
                  (@getFilenamesInDir ascii_unicode exampleDisk "/nowhere"
                     freshState).2).
Proof.
  pose proof (@failed_read_is_an_empty_listing ascii_unicode exampleDisk
                "/nowhere" freshState eq_refl eq_refl) as H.
  split; [apply H|]. apply H.
Defined.

(** C7. The [done] hook resets the plugin: the cache and the mutex record
    are empty and the read counter is zero, whatever they were. After it a
    request for any directory, cached before or not, issues a fresh
    [fs.readdir] and the counter reads one; in the event loop the first
    call for the directory gets the new mutex at once and its critical
    section issues the read. *)
Theorem reset_starts_cold `{U : Unicode} (fs : inputFileSystem) (w : world)
    (dir : string) :
  pathCache (this (node (doDone w))) = ∅
  /\ visitedPathMutexRecord (this (node (doDone w))) = ∅
  /\ fsOperations (this (node (doDone w))) = 0
  /\ (getFilenamesInDir fs dir (node (doDone w))).1 = listingOf (fs dir)
  /\ readdirCalls (getFilenamesInDir fs dir (node (doDone w))).2
     = readdirCalls (node w) ++ [dir]
  /\ fsOperations (this (getFilenamesInDir fs dir (node (doDone w))).2) = 1
  /\ exists w1,
       run [Call dir; Run dir] (doDone w) = Some w1
       /\ readdirCalls (node w1) = readdirCalls (node w) ++ [dir]
       /\ inflight w1 = inflight w ++ [(dir, length (calls w))]
       /\ fsOperations (this (node w1)) = 1.
Proof.
  assert (Hc : pathCache (this (node (doDone w))) !! dir = None)
    by apply lookup_empty.
  split; [done|]. split; [done|]. split; [done|].
  rewrite (getFilenamesInDir_miss fs dir _ Hc).
  split; [done|]. split; [done|].
  split; [simpl; by rewrite fsOperations_ensureMutex|].
  eexists. split.
  { simpl. unfold doCall, doRun, ensureMutex, mutexOf, setMutex, acquire,
      dispatch, setPhase, countRead.
    repeat
      (progress
         (cbn [node this holder waiters inflight delivered calls readdirCalls
               pathCache visitedPathMutexRecord fsOperations fst snd fmap
               option_fmap option_map default from_option id doDone onDone
               reset app];
          rewrite ?lookup_insert_eq, ?lookup_empty by done)).
    reflexivity. }
  by repeat split.
Qed.

(** * More properties of the code *)

(** ** The walk, level by level *)

Lemma ancestors_length (fuel : nat) (filepath : string) :
  length (ancestors fuel filepath) <= String.length filepath.
Proof.
  revert filepath. induction fuel as [|fuel IH]; intros filepath; simpl;
    [lia|].
  destruct (atRoot filepath) eqn:Hroot; simpl; [lia|].
  apply dirname_shorter in Hroot.
  specialize (IH (Path.dirname filepath)). lia.
Qed.

Section Walk.
Context `{U : Unicode}.
Variable fs : inputFileSystem.

Lemma getFilenamesInDir_listed (dir : string) (s : state) :
  (getFilenamesInDir fs dir s).1 = listed fs s dir.
Proof.
  unfold getFilenamesInDir, listed. rewrite pathCache_ensureMutex.
  by destruct (pathCache (this s) !! dir).
Qed.

Lemma getFilenamesInDir_cache (dir d : string) (s : state) :
  pathCache (this (getFilenamesInDir fs dir s).2) !! d
  = if decide (d = dir) then Some (listed fs s dir)
    else pathCache (this s) !! d.
Proof.
  unfold getFilenamesInDir, listed. rewrite pathCache_ensureMutex.
  destruct (pathCache (this s) !! dir) as [v|] eqn:Hc; simpl;
    rewrite pathCache_ensureMutex.
  - case_decide; by subst.
  - case_decide; [subst; by rewrite lookup_insert_eq
                 | by rewrite lookup_insert_ne].
Qed.

Lemma listed_getFilenamesInDir (dir d : string) (s : state) :
  listed fs (getFilenamesInDir fs dir s).2 d = listed fs s d.
Proof.
  unfold listed at 1. rewrite getFilenamesInDir_cache.
  case_decide; [by subst|done].
Qed.

Lemma getFilenamesInDir_reads (dir : string) (s : state) :
  readdirCalls (getFilenamesInDir fs dir s).2
  = readdirCalls s
    ++ match pathCache (this s) !! dir with Some _ => [] | None => [dir] end
  /\ fsOperations (this (getFilenamesInDir fs dir s).2)
     = fsOperations (this s)
       + match pathCache (this s) !! dir with Some _ => 0 | None => 1 end.
Proof.
  unfold getFilenamesInDir. rewrite pathCache_ensureMutex.
  destruct (pathCache (this s) !! dir); simpl;
    rewrite fsOperations_ensureMutex, ?app_nil_r; split; (done || lia).
Qed.

Lemma getFilenamesInDir_mutex (dir d : string) (s : state) :
  is_Some (visitedPathMutexRecord (this s) !! d) \/ d = dir ->
  is_Some (visitedPathMutexRecord (this (getFilenamesInDir fs dir s).2) !! d).
Proof.
  intros Hd.
  assert (He : is_Some (visitedPathMutexRecord (ensureMutex dir (this s)) !! d)).
  { destruct Hd as [Hd | ->]; [|apply ensureMutex_has].
    unfold ensureMutex. destruct (visitedPathMutexRecord (this s) !! dir);
      [done|]. simpl. destruct (decide (dir = d)) as [->|Hne];
      [by rewrite lookup_insert_eq | by rewrite lookup_insert_ne]. }
  unfold getFilenamesInDir.
  by destruct (pathCache (ensureMutex dir (this s)) !! dir).
Qed.

(** Where the walk ends and why: with [undefined] when every level is
    spelled as listed, and otherwise at the first level, from the leaf, whose
    basename is not listed, with the value of the loop over that listing.
    The walk does not change what is listed. *)
Lemma walk_outcome (fuel : nat) (filepath : string) (s s' : state)
    (v : option string) :
  fileExistsWithCase fs fuel filepath s = Some (v, s') ->
  (forall d, listed fs s' d = listed fs s d)
  /\ match v with
     | None =>
         Forall (fun q => Path.basename q ∈ listed fs s (Path.dirname q))
           (ancestors fuel filepath)
     | Some x =>
         exists before q after,
           ancestors fuel filepath = before ++ q :: after
           /\ Forall (fun q => Path.basename q ∈ listed fs s (Path.dirname q))
                before
           /\ (Path.basename q ∉ listed fs s (Path.dirname q))
           /\ x = correctFilename (Path.basename q)
                    (listed fs s (Path.dirname q))
     end.
Proof.
  revert filepath s. induction fuel as [|fuel IH]; intros filepath s; simpl;
    [done|].
  destruct (atRoot filepath) eqn:Hroot.
  { intros [= <- <-]. split; [done | by constructor]. }
  pose proof (getFilenamesInDir_listed (Path.dirname filepath) s) as Hl.
  pose proof (fun d => listed_getFilenamesInDir (Path.dirname filepath) d s)
    as Hinv.
  destruct (getFilenamesInDir fs (Path.dirname filepath) s)
    as [filenames s1]. simpl in Hl, Hinv. subst filenames.
  destruct (indexOf (Path.basename filepath)
              (listed fs s (Path.dirname filepath))) as [i|] eqn:Hidx.
  - intros Hrec. apply IH in Hrec as [Hsame Hv].
    assert (Hhere : Path.basename filepath
                    ∈ listed fs s (Path.dirname filepath)).
    { destruct (decide (Path.basename filepath
                        ∈ listed fs s (Path.dirname filepath))) as [|Hn];
        [done|]. apply indexOf_None in Hn. congruence. }
    split; [intros d; by rewrite Hsame, Hinv|].
    destruct v as [x|].
    + destruct Hv as (before & q & after & Heq & Hb & Hq & Hx).
      exists (filepath :: before), q, after. rewrite Heq.
      split; [done|]. split.
      { constructor; [done|]. eapply Forall_impl; [exact Hb|].
        intros q'. simpl. by rewrite Hinv. }
      rewrite Hinv in Hq, Hx. by split.
    + constructor; [done|]. eapply Forall_impl; [exact Hv|].
      intros q'. simpl. by rewrite Hinv.
  - intros [= <- <-]. split; [done|].
    exists [], filepath, (ancestors fuel (Path.dirname filepath)).
    repeat split; [by constructor | by apply indexOf_None].
Qed.

(** Every level spelled as listed: the walk ends with [undefined]. *)
Lemma walk_confirms (fuel : nat) (filepath : string) (s : state) :
  String.length filepath < fuel ->
  Forall (fun q => Path.basename q ∈ listed fs s (Path.dirname q))
    (ancestors fuel filepath) ->
  exists s', fileExistsWithCase fs fuel filepath s = Some (None, s').
Proof.
  revert filepath s. induction fuel as [|fuel IH]; intros filepath s Hlen;
    [lia|]. simpl.
  destruct (atRoot filepath) eqn:Hroot; [by eauto|].
  intros Hall. apply Forall_cons in Hall as [Hhere Hrest].
  pose proof (getFilenamesInDir_listed (Path.dirname filepath) s) as Hl.
  pose proof (fun d => listed_getFilenamesInDir (Path.dirname filepath) d s)
    as Hinv.
  destruct (getFilenamesInDir fs (Path.dirname filepath) s)
    as [filenames s1]. simpl in Hl, Hinv. subst filenames.
  destruct (indexOf_Some _ _ Hhere) as [i ->].
  apply IH.
  - apply dirname_shorter in Hroot. lia.
  - eapply Forall_impl; [exact Hrest|]. intros q. simpl. by rewrite Hinv.
Qed.

(** What the walk reads and what it leaves in the cache. *)
Lemma walk_effect (fuel : nat) (filepath : string) (s s' : state)
    (v : option string) :
  fileExistsWithCase fs fuel filepath s = Some (v, s') ->
  exists more,
    readdirCalls s' = readdirCalls s ++ more
    /\ fsOperations (this s') = fsOperations (this s) + length more
    /\ NoDup more
    /\ Forall (fun d => pathCache (this s) !! d = None
                        /\ d ∈ Path.dirname <$> ancestors fuel filepath) more
    /\ length more <= length (ancestors fuel filepath)
    /\ (forall d, pathCache (this s') !! d
                  = if decide (d ∈ more) then Some (listingOf (fs d))
                    else pathCache (this s) !! d).
Proof.
  revert filepath s. induction fuel as [|fuel IH]; intros filepath s; simpl;
    [done|].
  destruct (atRoot filepath) eqn:Hroot.
  { intros [= <- <-]. exists []. rewrite app_nil_r. simpl.
    repeat split; try done; try lia; by constructor. }
  set (dir := Path.dirname filepath).
  pose proof (getFilenamesInDir_reads dir s) as [Hr Hops].
  pose proof (fun d => getFilenamesInDir_cache dir d s) as Hc.
  destruct (getFilenamesInDir fs dir s) as [filenames s1]. simpl in *.
  assert (Hhere : exists here,
             readdirCalls s1 = readdirCalls s ++ here
             /\ fsOperations (this s1) = fsOperations (this s) + length here
             /\ here = match pathCache (this s) !! dir with
                       | Some _ => []
                       | None => [dir]
                       end).
  { eexists. split; [exact Hr|]. split; [|done].
    rewrite Hops. by destruct (pathCache (this s) !! dir). }
  destruct Hhere as (here & Hr1 & Hops1 & Hhere). clear Hr Hops.
  assert (Hc1 : forall d, pathCache (this s1) !! d
                          = if decide (d ∈ here) then Some (listingOf (fs d))
                            else pathCache (this s) !! d).
  { intros d. rewrite Hc. unfold listed. subst here.
    destruct (pathCache (this s) !! dir) as [x|] eqn:Hx.
    - rewrite (decide_False (P := d ∈ [])) by apply not_elem_of_nil.
      case_decide; by subst.
    - case_decide as Hd.
      + subst. by rewrite decide_True by by apply list_elem_of_singleton.
      + by rewrite decide_False by by rewrite list_elem_of_singleton. }
  assert (Hfresh : Forall (fun d => pathCache (this s) !! d = None
                                    /\ d = dir) here).
  { subst here. destruct (pathCache (this s) !! dir) eqn:Hx;
      by repeat constructor. }
  assert (Hlen : length here <= 1).
  { subst here. destruct (pathCache (this s) !! dir); simpl; lia. }
  assert (Hcached : is_Some (pathCache (this s1) !! dir)).
  { rewrite Hc, decide_True by done. by eexists. }
  assert (Hnd : NoDup here).
  { subst here. destruct (pathCache (this s) !! dir);
      [constructor | apply NoDup_singleton]. }
  destruct (indexOf (Path.basename filepath) filenames) as [i|].
  - intros Hrec. apply IH in Hrec
      as (more & Hr2 & Hops2 & Hnd2 & Hfresh2 & Hlen2 & Hc2).
    exists (here ++ more). rewrite Hr2, Hr1, Hops2, Hops1, length_app, app_assoc.
    split; [done|]. split; [lia|]. split.
    { apply NoDup_app. split; [done|]. split; [|done].
      intros d Hd1 Hd2. rewrite Forall_forall in Hfresh2.
      destruct (Hfresh2 d Hd2) as [Hnone _].
      rewrite Hc1, decide_True in Hnone by done. done. }
    split.
    { apply Forall_app. split.
      - eapply Forall_impl; [exact Hfresh|]. intros d [Hd ->].
        split; [done|]. simpl. apply elem_of_cons. by left.
      - rewrite Forall_forall in Hfresh2 |- *. intros d Hd.
        destruct (Hfresh2 d Hd) as [Hnone Hin]. split.
        + rewrite Hc1 in Hnone. by case_decide.
        + simpl. apply elem_of_cons. by right. }
    split; [simpl; lia|].
    intros d. rewrite Hc2, Hc1.
    destruct (decide (d ∈ more)) as [Hd|Hd].
    + rewrite decide_True by (apply elem_of_app; by right). done.
    + destruct (decide (d ∈ here)) as [Hd'|Hd'].
      * rewrite decide_True by (apply elem_of_app; by left). done.
      * rewrite decide_False; [done|].
        intros [?|?]%elem_of_app; done.
  - intros [= <- <-]. exists here. split; [done|]. split; [done|].
    split; [done|]. split.
    { eapply Forall_impl; [exact Hfresh|]. intros d [Hd ->].
      split; [done|]. simpl. apply elem_of_cons. by left. }
    split; [simpl; lia | done].
Qed.

End Walk.

Lemma walk_mono `{U : Unicode} (fs : inputFileSystem) (fuel : nat)
    (filepath : string) (s s' : state) (v : option string) :
  fileExistsWithCase fs fuel filepath s = Some (v, s') ->
  (forall d x, pathCache (this s) !! d = Some x ->
               pathCache (this s') !! d = Some x)
  /\ (forall d, is_Some (visitedPathMutexRecord (this s) !! d) ->
                is_Some (visitedPathMutexRecord (this s') !! d)).
Proof.
  revert filepath s. induction fuel as [|fuel IH]; intros filepath s; simpl;
    [done|].
  destruct (atRoot filepath); [by intros [= <- <-]|].
  pose proof (fun d => getFilenamesInDir_cache fs (Path.dirname filepath) d s)
    as Hc.
  pose proof (fun d => getFilenamesInDir_mutex fs (Path.dirname filepath) d s)
    as Hm.
  destruct (getFilenamesInDir fs (Path.dirname filepath) s)
    as [filenames s1]. simpl in Hc, Hm.
  assert (H1 : (forall d x, pathCache (this s) !! d = Some x ->
                            pathCache (this s1) !! d = Some x)
               /\ (forall d, is_Some (visitedPathMutexRecord (this s) !! d) ->
                             is_Some (visitedPathMutexRecord (this s1) !! d))).
  { split; [|intros d Hd; apply Hm; by left].
    intros d x Hx. rewrite Hc. case_decide as Hd; [|done].
    subst d. unfold listed. by rewrite Hx. }
  destruct (indexOf (Path.basename filepath) filenames).
  - intros Hrec. apply IH in Hrec as [H2 H3]. destruct H1 as [H1 H1'].
    split; [intros d x Hx; by apply H2, H1 | intros d Hd; by apply H3, H1'].
  - by intros [= <- <-].
Qed.

(** A walk that has run runs again from the cache alone, in any later
    state of the pass. *)
Lemma walk_again `{U : Unicode} (fs fs' : inputFileSystem) (fuel : nat)
    (filepath : string) (s s1 s2 : state) (v : option string) :
  fileExistsWithCase fs fuel filepath s = Some (v, s1) ->
  (forall d x, pathCache (this s1) !! d = Some x ->
               pathCache (this s2) !! d = Some x) ->
  (forall d, is_Some (visitedPathMutexRecord (this s1) !! d) ->
             is_Some (visitedPathMutexRecord (this s2) !! d)) ->
  fileExistsWithCase fs' fuel filepath s2 = Some (v, s2).
Proof.
  revert filepath s. induction fuel as [|fuel IH]; intros filepath s; simpl;
    [done|].
  destruct (atRoot filepath); [by intros [= <- <-]|].
  pose proof (getFilenamesInDir_listed fs (Path.dirname filepath) s) as Hl.
  pose proof (getFilenamesInDir_cache fs (Path.dirname filepath)
                (Path.dirname filepath) s) as Hc.
  pose proof (getFilenamesInDir_mutex fs (Path.dirname filepath)
                (Path.dirname filepath) s (or_intror eq_refl)) as Hm.
  destruct (getFilenamesInDir fs (Path.dirname filepath) s)
    as [filenames sa]. simpl in Hl, Hc, Hm.
  rewrite decide_True, <- Hl in Hc by done.
  assert (Hserve : forall sb,
            (forall d x, pathCache (this sa) !! d = Some x ->
                         pathCache (this sb) !! d = Some x) ->
            (forall d, is_Some (visitedPathMutexRecord (this sa) !! d) ->
                       is_Some (visitedPathMutexRecord (this sb) !! d)) ->
            getFilenamesInDir fs' (Path.dirname filepath) sb
            = (filenames, sb)).
  { intros sb Hcb Hmb.
    rewrite (getFilenamesInDir_cached fs' _ filenames sb) by by apply Hcb.
    rewrite ensureMutex_idem by by apply Hmb. by destruct sb. }
  destruct (indexOf (Path.basename filepath) filenames) eqn:Hidx.
  - intros Hrec Hc2 Hm2.
    destruct (walk_mono _ _ _ _ _ _ Hrec) as [Hmc Hmm].
    rewrite Hserve, Hidx; [by eapply IH | |].
    + intros d x Hx. by apply Hc2, Hmc.
    + intros d Hd. by apply Hm2, Hmm.
  - intros [= <- <-] Hc2 Hm2. by rewrite Hserve, Hidx.
Qed.

(** X1. With fuel for the whole path, the walk ends with [undefined] exactly
    when at every level it visits the basename is among the names listed
    for the directory, as the cache or else [fs.readdir] has them at the
    start. *)
Theorem confirmed_iff_spelled_as_listed `{U : Unicode}
    (fs : inputFileSystem) (filepath : string) (s : state) :
  (exists s',
     fileExistsWithCase fs (enough filepath) filepath s = Some (None, s'))
  <-> Forall (fun q => Path.basename q ∈ listed fs s (Path.dirname q))
        (ancestors (enough filepath) filepath).
Proof.
  split.
  - intros [s' Hw]. by destruct (walk_outcome fs _ _ _ _ _ Hw) as [_ Hv].
  - apply walk_confirms. unfold enough. lia.
Qed.

(** X2. [checkFile] answers with an error only for a name that is on disk in
    another spelling: the levels from the leaf split into those whose
    basename is listed and a first one, [q], whose basename is not listed;
    the listing of [q]'s directory has an entry that differs from the
    basename and equals it up to case, it is the first such entry, and the
    message names the path asked for and that entry. *)
Theorem error_names_a_listed_entry `{U : Unicode} (fs : inputFileSystem)
    (fuel : nat) (pathName : string) (cd : bool) (s s' : state)
    (message : string) :
  checkFile fs fuel pathName cd s = Some (DoneError message, s') ->
  exists before q after real,
    ancestors fuel pathName = before ++ q :: after
    /\ Forall (fun q => Path.basename q ∈ listed fs s (Path.dirname q)) before
    /\ (Path.basename q ∉ listed fs s (Path.dirname q))
    /\ real ∈ listed fs s (Path.dirname q)
    /\ real <> Path.basename q
    /\ toLowerCase real = toLowerCase (Path.basename q)
    /\ firstIgnoringCase (Path.basename q) (listed fs s (Path.dirname q))
       = Some real
    /\ message = errorMessage pathName ("`" ++ real ++ "`.")%string.
Proof.
  unfold checkFile.
  destruct (fileExistsWithCase fs fuel pathName s) as [[v s1]|] eqn:Hw;
    [|done].
  intros [= Hd <-].
  destruct (walk_outcome fs _ _ _ _ _ Hw) as [_ Hv].
  destruct v as [x|]; [|by destruct cd].
  destruct Hv as (before & q & after & Heq & Hb & Hq & Hx).
  rewrite correctFilename_first in Hx.
  destruct (firstIgnoringCase (Path.basename q)
              (listed fs s (Path.dirname q))) as [real|] eqn:Hf.
  - exists before, q, after, real.
    destruct (firstIgnoringCase_Some _ _ _ Hf) as (l1 & l2 & Hl & Hlow & _).
    assert (Hin : real ∈ listed fs s (Path.dirname q)).
    { rewrite Hl. apply elem_of_app. right. apply elem_of_cons. by left. }
    repeat split; try done.
    + intros ->. done.
    + subst x. unfold onRealName in Hd. simpl in Hd.
      by injection Hd as <-.
  - subst x. by destruct cd.
Qed.

Lemma error_names_a_listed_entry_witness :
  exists before q after real,
    ancestors 1 "/home/User/Project/index.js"%string = before ++ q :: after
    /\ Forall (fun q => Path.basename q
                        ∈ @listed ascii_unicode exampleDisk freshState
                            (Path.dirname q)) before
    /\ (Path.basename q
        ∉ @listed ascii_unicode exampleDisk freshState (Path.dirname q))
    /\ real ∈ @listed ascii_unicode exampleDisk freshState (Path.dirname q)
    /\ real <> Path.basename q
    /\ @toLowerCase ascii_unicode real
       = @toLowerCase ascii_unicode (Path.basename q)
    /\ @firstIgnoringCase ascii_unicode (Path.basename q)
         (@listed ascii_unicode exampleDisk freshState (Path.dirname q))
       = Some real
    /\ errorMessage "/home/User/Project/index.js" "`Index.js`."
       = errorMessage "/home/User/Project/index.js"
           ("`" ++ real ++ "`.")%string.
Proof.
  apply (@error_names_a_listed_entry ascii_unicode exampleDisk 1
           "/home/User/Project/index.js" false freshState
           (@getFilenamesInDir ascii_unicode exampleDisk
              "/home/User/Project" freshState).2).
  reflexivity.
Defined.

(** X3. The walk ends with [!nonexistent] only where nothing on disk has the
    name in any spelling: at the first level, from the leaf, whose basename is
    not listed, no entry of the listing equals the basename up to case. *)
Theorem nonexistent_has_no_variant `{U : Unicode} (fs : inputFileSystem)
    (fuel : nat) (filepath : string) (s s' : state) :
  fileExistsWithCase fs fuel filepath s
  = Some (Some "!nonexistent"%string, s') ->
  exists before q after,
    ancestors fuel filepath = before ++ q :: after
    /\ Forall (fun q => Path.basename q ∈ listed fs s (Path.dirname q)) before
    /\ Forall (fun f => toLowerCase f <> toLowerCase (Path.basename q))
         (listed fs s (Path.dirname q)).
Proof.
  intros Hw. destruct (walk_outcome fs _ _ _ _ _ Hw) as [_ Hv].
  destruct Hv as (before & q & after & Heq & Hb & Hq & Hx).
  exists before, q, after. split; [done|]. split; [done|].
  apply firstIgnoringCase_None. rewrite correctFilename_first in Hx.
  destruct (firstIgnoringCase (Path.basename q)
              (listed fs s (Path.dirname q))) as [real|]; [|done].
  change "!nonexistent"%string with (default ""%string (encode Nonexistent))
    in Hx.
  assert (He : encode Nonexistent = encode (Mismatch real)).
  { simpl. by rewrite <- Hx. }
  by apply encode_inj in He.
Qed.

Lemma nonexistent_has_no_variant_witness :
  exists before q after,
    ancestors 2 "/home/User/Project/missing.js"%string = before ++ q :: after
    /\ Forall (fun q => Path.basename q
                        ∈ @listed ascii_unicode exampleDisk freshState
                            (Path.dirname q)) before
    /\ Forall (fun f => @toLowerCase ascii_unicode f
                        <> @toLowerCase ascii_unicode (Path.basename q))
         (@listed ascii_unicode exampleDisk freshState (Path.dirname q)).
Proof.
  apply (@nonexistent_has_no_variant ascii_unicode exampleDisk 2
           "/home/User/Project/missing.js" freshState
           (@getFilenamesInDir ascii_unicode exampleDisk
              "/home/User/Project" freshState).2).
  reflexivity.
Defined.

(** X4. A walk reads only directories that are not cached and that are the
    [dirname] of a level it visits, each of them once, so at most as many as
    the path has characters; the read counter rises by the number of
    reads. *)
Theorem walk_reads_uncached_ancestors `{U : Unicode} (fs : inputFileSystem)
    (fuel : nat) (filepath : string) (s s' : state) (v : option string) :
  fileExistsWithCase fs fuel filepath s = Some (v, s') ->
  exists more,
    readdirCalls s' = readdirCalls s ++ more
    /\ fsOperations (this s') = fsOperations (this s) + length more
    /\ NoDup more
    /\ Forall (fun d => pathCache (this s) !! d = None
                        /\ d ∈ Path.dirname <$> ancestors fuel filepath) more
    /\ length more <= String.length filepath.
Proof.
  intros Hw.
  destruct (walk_effect fs _ _ _ _ _ Hw)
    as (more & Hr & Hops & Hnd & Hfresh & Hlen & _).
  exists more. repeat split; try done.
  pose proof (ancestors_length fuel filepath). lia.
Qed.

Lemma walk_reads_uncached_ancestors_witness :
  exists more,
    readdirCalls
      (@getFilenamesInDir ascii_unicode exampleDisk "/home/User"
         (@getFilenamesInDir ascii_unicode exampleDisk "/home/User/Project"
            freshState).2).2
    = readdirCalls freshState ++ more
    /\ fsOperations
         (this (@getFilenamesInDir ascii_unicode exampleDisk "/home/User"
                  (@getFilenamesInDir ascii_unicode exampleDisk
                     "/home/User/Project" freshState).2).2)
       = fsOperations (this freshState) + length more
    /\ NoDup more
    /\ Forall (fun d => pathCache (this freshState) !! d = None
                        /\ d ∈ Path.dirname
                               <$> ancestors 3
                                     "/home/User/Project/README.md"%string)
         more
    /\ length more <= String.length "/home/User/Project/README.md".
Proof.
  apply (@walk_reads_uncached_ancestors ascii_unicode exampleDisk 3
           "/home/User/Project/README.md" freshState _ None).
  vm_compute. reflexivity.
Defined.

(** X5. A walk leaves every cache entry it finds as it is, and the entries
    it adds are those of the directories it read, each with what
    [fs.readdir] answered for it (normalized, or empty on error). *)
Theorem walk_cache_frame `{U : Unicode} (fs : inputFileSystem) (fuel : nat)
    (filepath : string) (s s' : state) (v : option string) :
  fileExistsWithCase fs fuel filepath s = Some (v, s') ->
  exists more,
    readdirCalls s' = readdirCalls s ++ more
    /\ (forall d x, pathCache (this s) !! d = Some x ->
                    pathCache (this s') !! d = Some x)
    /\ (forall d, d ∈ more ->
                  pathCache (this s) !! d = None
                  /\ pathCache (this s') !! d = Some (listingOf (fs d)))
    /\ (forall d, d ∉ more ->
                  pathCache (this s') !! d = pathCache (this s) !! d).
Proof.
  intros Hw.
  destruct (walk_effect fs _ _ _ _ _ Hw)
    as (more & Hr & _ & _ & Hfresh & _ & Hc).
  rewrite Forall_forall in Hfresh.
  exists more. split; [done|]. split; [|split].
  - intros d x Hx. rewrite Hc. case_decide as Hd; [|done].
    destruct (Hfresh d Hd). congruence.
  - intros d Hd. split; [by apply Hfresh|]. by rewrite Hc, decide_True.
  - intros d Hd. by rewrite Hc, decide_False.
Qed.

Lemma walk_cache_frame_witness :
  exists more,
    readdirCalls
      (@getFilenamesInDir ascii_unicode exampleDisk "/home/User/Project"
         freshState).2
    = readdirCalls freshState ++ more
    /\ (forall d x, pathCache (this freshState) !! d = Some x ->
                    pathCache
                      (this (@getFilenamesInDir ascii_unicode exampleDisk
                               "/home/User/Project" freshState).2) !! d
                    = Some x)
    /\ (forall d, d ∈ more ->
                  pathCache (this freshState) !! d = None
                  /\ pathCache
                       (this (@getFilenamesInDir ascii_unicode exampleDisk
                                "/home/User/Project" freshState).2) !! d
                     = Some (@listingOf ascii_unicode (exampleDisk d)))
    /\ (forall d, d ∉ more ->
                  pathCache
                    (this (@getFilenamesInDir ascii_unicode exampleDisk
                             "/home/User/Project" freshState).2) !! d
                  = pathCache (this freshState) !! d).
Proof.
  apply (@walk_cache_frame ascii_unicode exampleDisk 1
           "/home/User/Project/index.js" freshState _
           (Some "`Index.js`."%string)).
  vm_compute. reflexivity.
Defined.

(** X6. Verifying a path again gives the same value without a read and
    without a change of state, whatever the file system would answer by
    then: the second walk is served from the cache the first one filled. *)
Theorem verified_again_from_cache `{U : Unicode} (fs fs' : inputFileSystem)
    (fuel : nat) (filepath : string) (s s1 : state) (v : option string) :
  fileExistsWithCase fs fuel filepath s = Some (v, s1) ->
  fileExistsWithCase fs' fuel filepath s1 = Some (v, s1)
  /\ forall cd,
       checkFile fs' fuel filepath cd s1
       = Some (onRealName filepath cd v, s1).
Proof.
  intros Hw.
  assert (Hagain : fileExistsWithCase fs' fuel filepath s1 = Some (v, s1))
    by by eapply walk_again.
  split; [done|]. intros cd. unfold checkFile. by rewrite Hagain.
Qed.

Lemma verified_again_from_cache_witness :
  @fileExistsWithCase ascii_unicode (fun _ => None) 1
    "/home/User/Project/index.js"
    (@getFilenamesInDir ascii_unicode exampleDisk "/home/User/Project"
       freshState).2
  = Some (Some "`Index.js`."%string,
          (@getFilenamesInDir ascii_unicode exampleDisk "/home/User/Project"
             freshState).2)
  /\ forall cd,
       @checkFile ascii_unicode (fun _ => None) 1
         "/home/User/Project/index.js" cd
         (@getFilenamesInDir ascii_unicode exampleDisk "/home/User/Project"
            freshState).2
       = Some (onRealName "/home/User/Project/index.js" cd
                 (Some "`Index.js`."%string),
               (@getFilenamesInDir ascii_unicode exampleDisk
                  "/home/User/Project" freshState).2).
Proof.
  apply (@verified_again_from_cache ascii_unicode exampleDisk (fun _ => None)
           1 "/home/User/Project/index.js" freshState).
  vm_compute. reflexivity.
Defined.

(** ** The before-emit hook *)

Lemma errors_onChecked (size : nat) (d : done_args) (e : emitState) :
  errors (onChecked size d e) = errors e ++ failures [d].
Proof.
  unfold onChecked. destruct (_ =? size)%nat; destruct d; simpl;
    by rewrite ?app_nil_r.
Qed.

Lemma failures_app (l1 l2 : list done_args) :
  failures (l1 ++ l2) = failures l1 ++ failures l2.
Proof.
  induction l1 as [|d l1 IH]; simpl; [done|].
  destruct d; simpl; by rewrite IH.
Qed.

Lemma failures_Permutation (l1 l2 : list done_args) :
  l1 ≡ₚ l2 -> failures l1 ≡ₚ failures l2.
Proof.
  induction 1 as [|d l1 l2 _ IH|d1 d2 l|l1 l2 l3 _ IH1 _ IH2]; simpl.
  - done.
  - destruct d; by rewrite IH.
  - destruct d1, d2; try done. apply Permutation_swap.
  - by etrans.
Qed.

(** While answers are missing, the function only counts and collects. *)
Lemma completions_pending (size : nat) (answered : list done_args)
    (e : emitState) :
  resolvedFilesCount e + length answered < size ->
  resolvedFilesCount (completions size answered e)
  = resolvedFilesCount e + length answered
  /\ errors (completions size answered e) = errors e ++ failures answered
  /\ compilationErrors (completions size answered e) = compilationErrors e
  /\ callbacks (completions size answered e) = callbacks e.
Proof.
  revert e. induction answered as [|d rest IH]; intros e Hlt; simpl in *.
  { rewrite app_nil_r. repeat split; lia. }
  assert (Hne : (resolvedFilesCount e + 1 =? size)%nat = false)
    by (apply Nat.eqb_neq; lia).
  destruct (IH (onChecked size d e)) as (Hc & He & Hce & Hcb).
  { unfold onChecked. rewrite Hne. simpl. lia. }
  rewrite Hc, He, Hce, Hcb, errors_onChecked.
  unfold onChecked. rewrite Hne. simpl.
  repeat split; [lia|].
  destruct d; simpl; by rewrite <- ?app_assoc, ?app_nil_r.
Qed.

(** The answer that makes the count reach [size] is the one that hands the
    collected messages to [compilation.errors] and calls [callback]. *)
Lemma completions_all (size : nat) (answers : list done_args)
    (e : emitState) :
  resolvedFilesCount e + length answers = size ->
  resolvedFilesCount (completions size answers e) = size
  /\ errors (completions size answers e) = errors e ++ failures answers
  /\ match answers with
     | [] => completions size answers e = e
     | _ =>
         callbacks (completions size answers e) = callbacks e + 1
         /\ compilationErrors (completions size answers e)
            = compilationErrors e ++ errors e ++ failures answers
     end.
Proof.
  revert e. induction answers as [|d rest IH]; intros e Hsize; simpl in *.
  { rewrite app_nil_r. repeat split; lia. }
  destruct (IH (onChecked size d e)) as (Hc & He & Hcb).
  { unfold onChecked. destruct (_ =? size)%nat; simpl; lia. }
  split; [done|].
  assert (Herr : errors e ++ failures (d :: rest)
                 = errors (onChecked size d e) ++ failures rest).
  { rewrite errors_onChecked. destruct d; simpl;
      by rewrite <- ?app_assoc, ?app_nil_r. }
  split; [by rewrite He|].
  destruct rest as [|d' rest'].
  - rewrite Hcb. simpl in Hsize. unfold onChecked.
    rewrite (proj2 (Nat.eqb_eq _ _)) by lia. simpl. split; [done|].
    destruct d; simpl; rewrite ?app_nil_r; try done;
      by destruct (errors e); rewrite ?app_nil_r.
  - destruct Hcb as [Hcb Hce]. simpl in Hsize.
    assert (Hne : (resolvedFilesCount e + 1 =? size)%nat = false)
      by (apply Nat.eqb_neq; lia).
    rewrite Hcb, Hce, <- Herr.
    unfold onChecked. rewrite Hne. simpl.
    split; [done|].
    destruct d; simpl; by rewrite <- ?app_assoc, ?app_nil_r.
Qed.

(** X7. The before-emit hook starts a check for every file dependency, and
    every check answers once, through the function of lines 240 to 252; the
    checks answer in whatever order their directory reads come back. For
    every sequence of answers, in every order: while an answer is missing
    the hook has not called its [callback] and [compilation.errors] is
    untouched; the last answer, whichever check gives it, makes the hook
    call [callback], exactly once, and by then [compilation.errors] has
    grown by the messages of the failed checks, in the order in which they
    answered. Another order of the same answers gives the same messages in
    another order. With no dependency at all the hook never calls
    [callback]. The check of a dependency always answers. *)
Theorem emit_hook_calls_back_once `{U : Unicode} (fs : inputFileSystem)
    (answers : list done_args) (compilationErrors0 : list string) :
  resolvedFilesCount
    (completions (length answers) answers (emitStart compilationErrors0))
  = length answers
  /\ errors
       (completions (length answers) answers (emitStart compilationErrors0))
     = failures answers
  /\ compilationErrors
       (completions (length answers) answers (emitStart compilationErrors0))
     = compilationErrors0 ++ failures answers
  /\ callbacks
       (completions (length answers) answers (emitStart compilationErrors0))
     = match answers with [] => 0 | _ => 1 end
  /\ (forall answered d pending,
        answers = answered ++ d :: pending ->
        callbacks
          (completions (length answers) answered
             (emitStart compilationErrors0)) = 0
        /\ compilationErrors
             (completions (length answers) answered
                (emitStart compilationErrors0)) = compilationErrors0
        /\ errors
             (completions (length answers) answered
                (emitStart compilationErrors0)) = failures answered)
  /\ (forall answers',
        answers ≡ₚ answers' ->
        compilationErrors
          (completions (length answers') answers'
             (emitStart compilationErrors0))
        ≡ₚ compilationErrors
             (completions (length answers) answers
                (emitStart compilationErrors0)))
  /\ (forall filename s,
        exists d s', emitCheck fs filename s = Some (d, s')).
Proof.
  assert (Hall : forall l : list done_args,
            resolvedFilesCount (completions (length l) l
                                  (emitStart compilationErrors0)) = length l
            /\ errors (completions (length l) l
                         (emitStart compilationErrors0)) = failures l
            /\ compilationErrors (completions (length l) l
                                    (emitStart compilationErrors0))
               = compilationErrors0 ++ failures l
            /\ callbacks (completions (length l) l
                            (emitStart compilationErrors0))
               = match l with [] => 0 | _ => 1 end).
  { intros l.
    destruct (completions_all (length l) l (emitStart compilationErrors0))
      as (Hc & He & Hcb); [done|].
    split; [done|]. split; [done|].
    destruct l as [|d l]; [by rewrite Hcb, app_nil_r|].
    by destruct Hcb as [-> ->]. }
  destruct (Hall answers) as (Hc & He & Hce & Hcb).
  split; [done|]. split; [done|]. split; [done|]. split; [done|].
  split.
  { intros answered d pending ->.
    destruct (completions_pending (length (answered ++ d :: pending))
                answered (emitStart compilationErrors0))
      as (_ & He' & Hce' & Hcb').
    { rewrite length_app. simpl. lia. }
    by rewrite He', Hce', Hcb'. }
  split.
  { intros answers' Hperm.
    destruct (Hall answers') as (_ & _ & -> & _). rewrite Hce.
    apply Permutation_app; [done|].
    symmetry. by apply failures_Permutation. }
  intros filename s. unfold emitCheck, checkFile.
  destruct (fileExistsWithCase_total fs (enough filename) filename s)
    as (v & s1 & Hv); [unfold enough; lia|].
  specialize (Hv 0). rewrite Nat.add_0_r in Hv. rewrite Hv. eauto.
Qed.

(** ** [cleanupPath] *)

Lemma replaceFirst_escapedHash_unfold (s : string) :
  replaceFirst escapedHash "#" s
  = match s with
    | String c rest =>
        match rest with
        | String d rest' =>
            if bool_decide (c = "000"%char /\ d = "#"%char)
            then String "#" rest'
            else String c (replaceFirst escapedHash "#" rest)
        | EmptyString => String c (replaceFirst escapedHash "#" rest)
        end
    | EmptyString => EmptyString
    end.
Proof.
  destruct s as [|c [|d rest']]; [done| |].
  - cbn [replaceFirst]. unfold escapedHash. rewrite prefix_cons.
    by destruct (ascii_dec "000" c).
  - cbn [replaceFirst]. unfold escapedHash at 1. rewrite !prefix_cons.
    rewrite prefix_nil.
    destruct (ascii_dec "000" c) as [<-|Hc].
    + destruct (ascii_dec "#" d) as [<-|Hd].
      * rewrite bool_decide_eq_true_2 by done. cbn.
        by rewrite Nat.sub_0_r, substring_all.
      * rewrite bool_decide_eq_false_2 by (intros [_ ?]; congruence). done.
    + rewrite bool_decide_eq_false_2 by (intros [? _]; congruence). done.
Qed.

Lemma replaceFirst_escapedHash_chars (s : string) (c : ascii) :
  c ∈ list_ascii_of_string (replaceFirst escapedHash "#" s) ->
  c ∈ list_ascii_of_string s.
Proof.
  remember (String.length s) as n eqn:Hn. revert s Hn.
  induction n as [n IH] using lt_wf_ind. intros s Hn.
  rewrite replaceFirst_escapedHash_unfold.
  destruct s as [|a [|b rest]]; [done| |].
  - change (replaceFirst escapedHash "#" "") with ""%string. done.
  - case_bool_decide as Hab.
    + destruct Hab as [-> ->]. cbn [list_ascii_of_string].
      intros Hc. apply elem_of_cons. by right.
    + cbn [list_ascii_of_string].
      intros [-> | Hc]%elem_of_cons; [apply elem_of_cons; by left|].
      apply elem_of_cons. right.
      apply (IH (String.length (String b rest)) ltac:(subst n; simpl; lia)
               (String b rest) eq_refl Hc).
Qed.

Lemma replaceFirst_escapedHash_length (s : string) :
  String.length (replaceFirst escapedHash "#" s) <= String.length s.
Proof.
  assert (H : forall n s, String.length s <= n ->
                String.length (replaceFirst escapedHash "#" s)
                <= String.length s).
  { clear s. induction n as [|n IH]; intros s Hs;
      rewrite replaceFirst_escapedHash_unfold;
      destruct s as [|a [|b rest]]; cbn [String.length] in *; try lia.
    - change (replaceFirst escapedHash "#" "") with ""%string. simpl. lia.
    - case_bool_decide; cbn [String.length]; [lia|].
      specialize (IH (String b rest)). cbn [String.length] in IH. lia. }
  by apply (H (String.length s)).
Qed.

Lemma splitHead_length (sep : ascii) (s : string) :
  String.length (splitHead sep s) <= String.length s.
Proof.
  induction s as [|c s IH]; simpl; [lia|].
  case_bool_decide; simpl; lia.
Qed.

(** X8. The cleaned path never has a [?] and is never longer than the
    resource; a resource without [?] and without [\0#] is left as it is; and
    of several [\0#] in a resource without [?] only the first is replaced,
    whatever follows it stays. *)
Theorem cleanupPath_shape (resourcePath : string) :
  ("?"%char ∉ list_ascii_of_string (cleanupPath resourcePath))
  /\ String.length (cleanupPath resourcePath) <= String.length resourcePath
  /\ ("?"%char ∉ list_ascii_of_string resourcePath ->
      occurs escapedHash resourcePath = false ->
      cleanupPath resourcePath = resourcePath)
  /\ (forall pre post,
        resourcePath = (pre ++ escapedHash ++ post)%string ->
        "?"%char ∉ list_ascii_of_string resourcePath ->
        occurs escapedHash pre = false ->
        cleanupPath resourcePath = (pre ++ "#" ++ post)%string).
Proof.
  unfold cleanupPath. split; [|split; [|split]].
  - intros Hq. apply replaceFirst_escapedHash_chars in Hq.
    by apply splitHead_clean in Hq.
  - pose proof (replaceFirst_escapedHash_length (splitHead "?" resourcePath)).
    pose proof (splitHead_length "?" resourcePath). lia.
  - intros Hq Hocc. rewrite splitHead_none by done.
    by apply replaceFirst_none.
  - intros pre post -> Hq Hocc. rewrite splitHead_none by done.
    by apply replaceFirst_escapedHash.
Qed.

(** ** Who waits, who holds, who was answered *)

Lemma record_setMutex (dir d : string) (m : mutex) (p : plugin) :
  is_Some (visitedPathMutexRecord (setMutex dir m p) !! d)
  <-> d = dir \/ is_Some (visitedPathMutexRecord p !! d).
Proof.
  unfold setMutex; simpl. destruct (decide (dir = d)) as [-> | Hne].
  - rewrite lookup_insert_eq. split; [by left | by eauto].
  - rewrite lookup_insert_ne by done. split; [by right|].
    by intros [-> | ?].
Qed.

Lemma record_ensureMutex (dir d : string) (p : plugin) :
  is_Some (visitedPathMutexRecord (ensureMutex dir p) !! d)
  <-> d = dir \/ is_Some (visitedPathMutexRecord p !! d).
Proof.
  unfold ensureMutex.
  destruct (visitedPathMutexRecord p !! dir) as [m|] eqn:E; simpl.
  - split; [by right|]. intros [-> | ?]; [by rewrite E | done].
  - destruct (decide (dir = d)) as [-> | Hne].
    + rewrite lookup_insert_eq. split; [by left | by eauto].
    + rewrite lookup_insert_ne by done. split; [by right|].
      by intros [-> | ?].
Qed.

Lemma passStart_orderly : orderly passStart.
Proof.
  split; unfold passStart, answeredCalls, mutexOf; simpl.
  - intros c dir v Hin. by apply elem_of_nil in Hin.
  - constructor.
  - intros dir c. rewrite lookup_empty. simpl. intros Hin.
    by apply elem_of_nil in Hin.
  - intros dir c ph. by rewrite lookup_empty.
  - intros dir. rewrite lookup_empty. constructor.
  - intros dir Hin. by apply elem_of_nil in Hin.
  - intros dir. rewrite lookup_empty. split; [by intros [? ?]|].
    intros Hin. by apply elem_of_nil in Hin.
Qed.

Section Orderly.
Context `{U : Unicode}.

Lemma answered_lt (c : nat) (w : world) :
  orderly w -> c ∈ answeredCalls w -> c < length (calls w).
Proof.
  intros Hw Hin. unfold answeredCalls in Hin.
  apply list_elem_of_fmap in Hin as ([[c' d] v] & -> & Hin). simpl.
  apply (delivered_known w Hw) in Hin. by apply lookup_lt_Some in Hin.
Qed.

Lemma doCall_orderly (dir : string) (w : world) :
  consistent w -> orderly w -> orderly (doCall dir w).
Proof.
  intros Hc Hw.
  assert (Hfresh : length (calls w) ∉ answeredCalls w).
  { intros Hin. apply answered_lt in Hin; [lia | done]. }
  assert (Hlt : forall c d, calls w !! c = Some d -> c <> length (calls w)).
  { intros c d Hcd ->. apply lookup_lt_Some in Hcd. lia. }
  destruct Hw as [Hdk Hdo Hwk Hhk Hwo Hrc Hmc].
  unfold doCall. rewrite pathCache_ensureMutex.
  destruct (pathCache (this (node w)) !! dir) as [v|] eqn:Hcache.
  - split; unfold answeredCalls in *; simpl.
    + intros c d v' [Hin | Hin%list_elem_of_singleton]%elem_of_app.
      * apply lookup_app_l_Some. by eapply Hdk.
      * simplify_eq. by rewrite lookup_app_r, Nat.sub_diag.
    + rewrite fmap_app. apply NoDup_app. split; [done|]. split.
      * intros c Hin [-> | Hn]%elem_of_cons;
          [done | by apply elem_of_nil in Hn].
      * apply NoDup_singleton.
    + intros d c. rewrite mutexOf_ensureMutex. intros Hin.
      destruct (Hwk d c Hin) as [Hcd Hna].
      split; [by apply lookup_app_l_Some|]. rewrite fmap_app.
      intros [? | Hin'%list_elem_of_singleton]%elem_of_app; [done|].
      simpl in Hin'. by eapply Hlt.
    + intros d c ph. rewrite mutexOf_ensureMutex. intros Hh.
      destruct (Hhk d c ph Hh) as (Hcd & Hna & Hnw).
      split; [by apply lookup_app_l_Some|]. split; [|done].
      intros Hph. rewrite fmap_app.
      intros [? | Hin'%list_elem_of_singleton]%elem_of_app; [by apply Hna|].
      simpl in Hin'. by eapply Hlt.
    + intros d. rewrite mutexOf_ensureMutex. apply Hwo.
    + intros d Hd. apply elem_of_app. left. by apply Hrc.
    + intros d. rewrite record_ensureMutex, elem_of_app, list_elem_of_singleton.
      rewrite Hmc. tauto.
  - rewrite mutexOf_ensureMutex.
    rewrite acquire_holder by apply (free_empty w Hc).
    split; unfold answeredCalls in *; simpl.
    + intros c d v' Hin. apply lookup_app_l_Some. by eapply Hdk.
    + done.
    + intros d c. rewrite mutexOf_setMutex, mutexOf_ensureMutex.
      case_decide as Hd; [subst d|].
      * destruct (holder (mutexOf dir (this (node w)))) as [h|] eqn:Hh;
          simpl; [|by intros ?%elem_of_nil].
        intros [Hin | ->%list_elem_of_singleton]%elem_of_app.
        -- destruct (Hwk dir c Hin). split; [by apply lookup_app_l_Some|done].
        -- split; [|done]. by rewrite lookup_app_r, Nat.sub_diag.
      * intros Hin. destruct (Hwk d c Hin).
        split; [by apply lookup_app_l_Some|done].
    + intros d c ph. rewrite mutexOf_setMutex, mutexOf_ensureMutex.
      case_decide as Hd; [subst d|].
      * destruct (holder (mutexOf dir (this (node w)))) as [h|] eqn:Hh;
          simpl.
        -- intros [= ->]. destruct (Hhk dir c ph Hh) as (Hcd & Hna & Hnw).
           split; [by apply lookup_app_l_Some|]. split; [done|].
           intros [? |  ->%list_elem_of_singleton]%elem_of_app; [done|].
           by eapply Hlt.
        -- intros [= <- <-]. split; [by rewrite lookup_app_r, Nat.sub_diag|].
           split; [done | apply not_elem_of_nil].
      * intros Hh. destruct (Hhk d c ph Hh) as (Hcd & Hna & Hnw).
        split; [by apply lookup_app_l_Some|done].
    + intros d. rewrite mutexOf_setMutex, mutexOf_ensureMutex.
      case_decide as Hd; [subst d|apply Hwo].
      destruct (holder (mutexOf dir (this (node w)))) as [h|] eqn:Hh;
        simpl; [|constructor].
      apply NoDup_app. split; [apply Hwo|]. split; [|apply NoDup_singleton].
      intros c Hin ->%list_elem_of_singleton.
      destruct (Hwk dir _ Hin) as [Hcd _]. by eapply Hlt.
    + intros d Hd. apply elem_of_app. left. by apply Hrc.
    + intros d. rewrite lookup_insert_is_Some, record_ensureMutex, elem_of_app,
        list_elem_of_singleton, Hmc.
      destruct (decide (dir = d)); intuition congruence.
Qed.

Lemma holder_has_mutex (dir : string) (h : nat * phase) (p : plugin) :
  holder (mutexOf dir p) = Some h ->
  is_Some (visitedPathMutexRecord p !! dir).
Proof.
  unfold mutexOf. by destruct (visitedPathMutexRecord p !! dir).
Qed.

(** The holder of a mutex is answered and its critical section is over. *)
Lemma deliver_orderly (w w' : world) (dir : string) (c : nat) (ph : phase)
    (v : list string) :
  orderly w ->
  holder (mutexOf dir (this (node w))) = Some (c, ph) -> ph <> Settled ->
  delivered w' = delivered w ++ [(c, dir, v)] ->
  calls w' = calls w ->
  readdirCalls (node w') = readdirCalls (node w) ->
  (forall d, mutexOf d (this (node w'))
             = if decide (dir = d)
               then {| holder := Some (c, Settled);
                       waiters := waiters (mutexOf dir (this (node w))) |}
               else mutexOf d (this (node w))) ->
  (forall d, is_Some (visitedPathMutexRecord (this (node w')) !! d)
             <-> is_Some (visitedPathMutexRecord (this (node w)) !! d)) ->
  orderly w'.
Proof.
  intros [Hdk Hdo Hwk Hhk Hwo Hrc Hmc] Hh Hph Hd Hcalls Hreads Hm Hrec.
  destruct (Hhk dir c ph Hh) as (Hcd & Hna & Hnw). specialize (Hna Hph).
  assert (Ha : answeredCalls w' = answeredCalls w ++ [c]).
  { unfold answeredCalls. by rewrite Hd, fmap_app. }
  split; rewrite ?Ha, ?Hcalls, ?Hreads; try done.
  - intros c' d v'. rewrite Hd.
    intros [Hin | Hin%list_elem_of_singleton]%elem_of_app;
      [by eapply Hdk | by simplify_eq].
  - apply NoDup_app. split; [done|]. split; [|apply NoDup_singleton].
    intros c' Hin ->%list_elem_of_singleton. done.
  - intros d c'. rewrite Hm. case_decide as Hdd; [subst d; simpl|].
    + intros Hin. destruct (Hwk dir c' Hin) as [Hc' Hna'].
      split; [done|].
      intros [? | ->%list_elem_of_singleton]%elem_of_app; done.
    + intros Hin. destruct (Hwk d c' Hin) as [Hc' Hna'].
      split; [done|].
      intros [? | ->%list_elem_of_singleton]%elem_of_app; [done|].
      congruence.
  - intros d c' ph'. rewrite Hm. case_decide as Hdd; [subst d; simpl|].
    + intros [= <- <-]. by repeat split.
    + intros Hh'. destruct (Hhk d c' ph' Hh') as (Hc' & Hna' & Hnw').
      split; [done|]. split; [|done]. intros Hp.
      intros [? | ->%list_elem_of_singleton]%elem_of_app; [by apply Hna'|].
      congruence.
  - intros d. rewrite Hm. case_decide; [subst d; simpl|]; apply Hwo.
  - intros d. by rewrite Hrec.
Qed.

Lemma doRun_orderly (dir : string) (w w' : world) :
  orderly w -> doRun dir w = Some w' -> orderly w'.
Proof.
  intros Hw. unfold doRun.
  destruct (holder (mutexOf dir (this (node w)))) as [[c []]|] eqn:Hh;
    try done.
  pose proof (holder_has_mutex _ _ _ Hh) as Hhas.
  unfold setPhase. rewrite Hh. simpl.
  destruct (pathCache (this (node w)) !! dir) as [v|] eqn:Hcache;
    intros [= <-].
  - eapply (deliver_orderly w _ dir c Granted v); try done; simpl.
    + intros d. by rewrite mutexOf_setMutex.
    + intros d. rewrite lookup_insert_is_Some.
      destruct (decide (dir = d)) as [<-|]; intuition congruence.
  - destruct Hw as [Hdk Hdo Hwk Hhk Hwo Hrc Hmc].
    destruct (Hhk dir c Granted Hh) as (Hcd & Hna & Hnw).
    split; unfold answeredCalls in *; simpl; try done.
    + intros d c'. rewrite mutexOf_setMutex.
      case_decide as Hd; [subst d; simpl|]; apply Hwk.
    + intros d c' ph. rewrite mutexOf_setMutex.
      case_decide as Hd; [subst d; simpl|by apply Hhk].
      intros [= <- <-]. split; [done|]. split; [|done].
      intros _. by apply Hna.
    + intros d. rewrite mutexOf_setMutex.
      case_decide as Hd; [subst d; simpl|]; apply Hwo.
    + intros d [Hin | ->%list_elem_of_singleton]%elem_of_app;
        [by apply Hrc|]. by eapply list_elem_of_lookup_2.
    + intros d. rewrite lookup_insert_is_Some, <- Hmc.
      change (visitedPathMutexRecord (countRead (this (node w))))
        with (visitedPathMutexRecord (this (node w))).
      destruct (decide (dir = d)) as [<-|]; intuition congruence.
Qed.

Lemma doReturn_orderly (dir : string) (c : nat)
    (answer : option (list string)) (w w' : world) :
  consistent w -> orderly w -> doReturn dir c answer w = Some w' ->
  orderly w'.
Proof.
  intros Hc Hw. unfold doReturn. case_bool_decide as Hin; [|done].
  intros [= <-].
  pose proof (inflight_holder dir c w Hc Hin) as Hh.
  pose proof (holder_has_mutex _ _ _ Hh) as Hhas.
  eapply (deliver_orderly w _ dir c Reading (listingOf answer));
    try done; simpl.
  - intros d. rewrite mutexOf_setMutex. case_decide; [|done].
    unfold resolvePromise, setPhase.
    change (mutexOf dir (storeListing dir (listingOf answer) (this (node w))))
      with (mutexOf dir (this (node w))).
    rewrite Hh. by rewrite decide_True.
  - intros d. rewrite lookup_insert_is_Some.
    destruct (decide (dir = d)) as [<-|]; intuition congruence.
Qed.

Lemma doRelease_orderly (dir : string) (w w' : world) :
  orderly w -> doRelease dir w = Some w' -> orderly w'.
Proof.
  intros Hw. unfold doRelease.
  destruct (holder (mutexOf dir (this (node w)))) as [[c []]|] eqn:Hh;
    try done.
  pose proof (holder_has_mutex _ _ _ Hh) as Hhas.
  intros [= <-]. rewrite release_holder.
  destruct Hw as [Hdk Hdo Hwk Hhk Hwo Hrc Hmc].
  split; unfold answeredCalls in *; simpl; try done.
  - intros d c'. rewrite mutexOf_setMutex.
    case_decide as Hd; [subst d|by apply Hwk].
    destruct (waiters (mutexOf dir (this (node w)))) as [|h rest] eqn:Hws;
      simpl; [by intros ?%elem_of_nil|].
    intros Hin. apply (Hwk dir). rewrite Hws. apply elem_of_cons. by right.
  - intros d c' ph. rewrite mutexOf_setMutex.
    case_decide as Hd; [subst d|by apply Hhk].
    pose proof (Hwo dir) as Hnd.
    destruct (waiters (mutexOf dir (this (node w)))) as [|h rest] eqn:Hws;
      simpl; [done|].
    intros [= <- <-].
    destruct (Hwk dir h) as [Hcd Hna];
      [rewrite Hws; apply elem_of_cons; by left|].
    apply NoDup_cons in Hnd as [Hnh _]. by repeat split.
  - intros d. rewrite mutexOf_setMutex.
    case_decide as Hd; [subst d|apply Hwo].
    pose proof (Hwo dir) as Hnd.
    destruct (waiters (mutexOf dir (this (node w)))) as [|h rest];
      simpl; [constructor|]. by apply NoDup_cons in Hnd as [_ ?].
  - intros d. rewrite lookup_insert_is_Some, <- Hmc.
    destruct (decide (dir = d)) as [<-|]; intuition congruence.
Qed.

Lemma step_orderly (e : event) (w w' : world) :
  consistent w -> orderly w -> step e w = Some w' -> orderly w'.
Proof.
  destruct e as [dir | dir | dir c answer | dir]; simpl; intros Hc Hw Hs.
  - injection Hs as <-. by apply doCall_orderly.
  - by eapply doRun_orderly.
  - by eapply doReturn_orderly.
  - by eapply doRelease_orderly.
Qed.

Lemma run_orderly (schedule : list event) (w w' : world) :
  consistent w -> orderly w -> run schedule w = Some w' -> orderly w'.
Proof.
  revert w. induction schedule as [|e rest IH]; intros w Hc Hw; simpl.
  - by intros [= <-].
  - destruct (step e w) as [w1|] eqn:Hs; [|done].
    apply IH; [by eapply step_consistent | by eapply step_orderly].
Qed.

End Orderly.

Lemma NoDup_of_counts (l : list string) :
  (forall d, length (filter (fun x => x = d) l) <= 1) -> NoDup l.
Proof.
  induction l as [|a l IH]; intros Hcount; [constructor|].
  constructor.
  - intros Hin. specialize (Hcount a).
    rewrite filter_cons_True in Hcount by done. simpl in Hcount.
    apply list_elem_of_split in Hin as (l1 & l2 & ->).
    rewrite filter_app, filter_cons_True, length_app in Hcount by done.
    simpl in Hcount. lia.
  - apply IH. intros d. specialize (Hcount d).
    rewrite filter_cons in Hcount. destruct (decide (a = d)); simpl in *; lia.
Qed.

Lemma step_calls `{U : Unicode} (e : event) (w w' : world) :
  step e w = Some w' -> exists more, calls w' = calls w ++ more.
Proof.
  destruct e as [d | d | d c answer | d]; simpl; intros Hs.
  - injection Hs as <-. exists [d]. unfold doCall.
    by destruct (pathCache (ensureMutex d (this (node w))) !! d).
  - unfold doRun in Hs.
    destruct (holder (mutexOf d (this (node w)))) as [[c []]|]; try done.
    exists []. rewrite app_nil_r.
    by destruct (pathCache (this (node w)) !! d); injection Hs as <-.
  - unfold doReturn in Hs. case_bool_decide; [|done]. injection Hs as <-.
    exists []. by rewrite app_nil_r.
  - unfold doRelease in Hs.
    destruct (holder (mutexOf d (this (node w)))) as [[c []]|]; try done.
    injection Hs as <-. exists []. by rewrite app_nil_r.
Qed.

Lemma run_calls `{U : Unicode} (schedule : list event) (w w' : world) :
  run schedule w = Some w' -> exists more, calls w' = calls w ++ more.
Proof.
  revert w. induction schedule as [|e rest IH]; intros w; simpl.
  - intros [= <-]. exists []. by rewrite app_nil_r.
  - destruct (step e w) as [w1|] eqn:Hs; [|done]. intros Hr.
    destruct (step_calls _ _ _ Hs) as [m1 H1].
    destruct (IH _ Hr) as [m2 H2]. exists (m1 ++ m2).
    by rewrite H2, H1, app_assoc.
Qed.

(** X9. In every world of a pass the callback of a call has run at most
    once, and with the directory the call asked for; and whatever the file
    system answers, once the events left for a directory have run, the
    callback of every call made for it has run exactly once. *)
Theorem callback_runs_once `{U : Unicode} (schedule : list event)
    (w : world) :
  run schedule passStart = Some w ->
  NoDup (answeredCalls w)
  /\ (forall c dir v, (c, dir, v) ∈ delivered w -> calls w !! c = Some dir)
  /\ (forall (fs : inputFileSystem) dir, exists rest w',
        run rest w = Some w'
        /\ idle dir w'
        /\ NoDup (answeredCalls w')
        /\ forall c, calls w !! c = Some dir -> c ∈ answeredCalls w').
Proof.
  intros Hrun.
  assert (Hc : consistent w)
    by (eapply run_consistent; [apply passStart_consistent | done]).
  assert (Ho : orderly w).
  { eapply run_orderly;
      [apply passStart_consistent | apply passStart_orderly | done]. }
  split; [apply (delivered_once w Ho)|].
  split; [apply (delivered_known w Ho)|].
  intros fs dir.
  destruct (drain_idle fs dir (backlog dir w) w Hc (le_n _))
    as (rest & w' & _ & Hrest & _ & Hidle).
  pose proof (run_consistent _ _ _ Hc Hrest) as Hc'.
  pose proof (run_orderly _ _ _ Hc Ho Hrest) as Ho'.
  exists rest, w'. split; [done|]. split; [done|].
  split; [apply (delivered_once w' Ho')|].
  intros c Hcall.
  destruct (run_calls _ _ _ Hrest) as [more Hmore].
  assert (Hcall' : calls w' !! c = Some dir).
  { rewrite Hmore. by apply lookup_app_l_Some. }
  destruct (idle_all_delivered dir c w' Hc' Hidle Hcall') as [v Hv].
  unfold answeredCalls. apply list_elem_of_fmap.
  by exists (c, dir, v).
Qed.

Lemma callback_runs_once_witness :
  NoDup (answeredCalls servedWorld)
  /\ (forall c dir v,
        (c, dir, v) ∈ delivered servedWorld ->
        calls servedWorld !! c = Some dir)
  /\ (forall (fs : inputFileSystem) dir, exists rest w',
        @run ascii_unicode rest servedWorld = Some w'
        /\ idle dir w'
        /\ NoDup (answeredCalls w')
        /\ forall c, calls servedWorld !! c = Some dir ->
                     c ∈ answeredCalls w').
Proof.
  apply (@callback_runs_once ascii_unicode servedSchedule servedWorld).
  vm_compute. reflexivity.
Defined.

(** X10. In every world of a pass the file system was asked only for
    directories that [getFilenamesInDir] was called for, for each of them at
    most once, so the read counter never exceeds the number of calls; and a
    directory is cached only if it was read. *)
Theorem reads_only_what_was_asked `{U : Unicode} (schedule : list event)
    (w : world) :
  run schedule passStart = Some w ->
  NoDup (readdirCalls (node w))
  /\ (forall dir, dir ∈ readdirCalls (node w) -> dir ∈ calls w)
  /\ fsOperations (this (node w)) <= length (calls w)
  /\ (forall dir, is_Some (pathCache (this (node w)) !! dir) ->
                  dir ∈ readdirCalls (node w)).
Proof.
  intros Hrun.
  assert (Hc : consistent w)
    by (eapply run_consistent; [apply passStart_consistent | done]).
  assert (Ho : orderly w).
  { eapply run_orderly;
      [apply passStart_consistent | apply passStart_orderly | done]. }
  assert (Hnd : NoDup (readdirCalls (node w))).
  { apply NoDup_of_counts. intros d. apply (consistent_reads_le d w Hc). }
  split; [done|]. split; [apply (reads_called w Ho)|]. split.
  - rewrite (operations_counted w Hc). apply submseteq_length.
    apply NoDup_submseteq; [done | apply (reads_called w Ho)].
  - intros dir [v Hv].
    pose proof (consistent_reads_cached dir v w Hc Hv) as Hone.
    unfold readsOf in Hone.
    destruct (filter (fun d => d = dir) (readdirCalls (node w)))
      as [|d l] eqn:Hf; [done|].
    assert (Hin : d ∈ filter (fun d => d = dir) (readdirCalls (node w))).
    { rewrite Hf. apply elem_of_cons. by left. }
    apply list_elem_of_filter in Hin as [-> Hin]. done.
Qed.

Lemma reads_only_what_was_asked_witness :
  NoDup (readdirCalls (node crowdedWorld))
  /\ (forall dir, dir ∈ readdirCalls (node crowdedWorld) ->
                  dir ∈ calls crowdedWorld)
  /\ fsOperations (this (node crowdedWorld)) <= length (calls crowdedWorld)
  /\ (forall dir, is_Some (pathCache (this (node crowdedWorld)) !! dir) ->
                  dir ∈ readdirCalls (node crowdedWorld)).
Proof.
  apply (@reads_only_what_was_asked ascii_unicode crowdedSchedule
           crowdedWorld).
  vm_compute. reflexivity.
Defined.

(** X11. In every world of a pass the directories that have a mutex are
    exactly those [getFilenamesInDir] was called for, and no later event
    takes a mutex out of the record. *)
Theorem mutex_per_asked_directory `{U : Unicode} (schedule : list event)
    (w : world) :
  run schedule passStart = Some w ->
  (forall dir, is_Some (visitedPathMutexRecord (this (node w)) !! dir)
               <-> dir ∈ calls w)
  /\ (forall later w' dir,
        run later w = Some w' ->
        is_Some (visitedPathMutexRecord (this (node w)) !! dir) ->
        is_Some (visitedPathMutexRecord (this (node w')) !! dir)).
Proof.
  intros Hrun.
  assert (Hc : consistent w)
    by (eapply run_consistent; [apply passStart_consistent | done]).
  assert (Ho : orderly w).
  { eapply run_orderly;
      [apply passStart_consistent | apply passStart_orderly | done]. }
  split; [apply (mutex_called w Ho)|].
  intros later w' dir Hlater Hm.
  pose proof (run_orderly _ _ _ Hc Ho Hlater) as Ho'.
  apply (mutex_called w' Ho'). apply (mutex_called w Ho) in Hm.
  destruct (run_calls _ _ _ Hlater) as [more ->].
  apply elem_of_app. by left.
Qed.

Lemma mutex_per_asked_directory_witness :
  (forall dir,
     is_Some (visitedPathMutexRecord (this (node crowdedWorld)) !! dir)
     <-> dir ∈ calls crowdedWorld)
  /\ (forall later w' dir,
        @run ascii_unicode later crowdedWorld = Some w' ->
        is_Some (visitedPathMutexRecord (this (node crowdedWorld)) !! dir) ->
        is_Some (visitedPathMutexRecord (this (node w')) !! dir)).
Proof.
  apply (@mutex_per_asked_directory ascii_unicode crowdedSchedule
           crowdedWorld).
  vm_compute. reflexivity.
Defined.

(** ** What the cache holds and how long a directory stays busy *)

Lemma step_cache_source `{U : Unicode} (e : event) (dir : string)
    (v : list string) (w w' : world) :
  step e w = Some w' ->
  pathCache (this (node w')) !! dir = Some v ->
  pathCache (this (node w)) !! dir = Some v
  \/ exists c answer, e = Return dir c answer /\ v = listingOf answer.
Proof.
  destruct e as [d | d | d c answer | d]; simpl; intros Hs.
  - injection Hs as <-. unfold doCall.
    destruct (pathCache (ensureMutex d (this (node w))) !! d); simpl;
      rewrite pathCache_ensureMutex; by left.
  - unfold doRun in Hs.
    destruct (holder (mutexOf d (this (node w)))) as [[c []]|]; try done.
    destruct (pathCache (this (node w)) !! d); injection Hs as <-; by left.
  - unfold doReturn in Hs. case_bool_decide; [|done]. injection Hs as <-.
    simpl. destruct (decide (d = dir)) as [->|Hne].
    + rewrite lookup_insert_eq. intros [= <-]. right. by eauto.
    + rewrite lookup_insert_ne by done. by left.
  - unfold doRelease in Hs.
    destruct (holder (mutexOf d (this (node w)))) as [[c []]|]; try done.
    injection Hs as <-. by left.
Qed.

(** X12. Whatever the schedule, an entry of the cache is what a callback of
    [fs.readdir] for that very directory stored: the names it was given,
    normalized, or the empty sequence for an error. Nothing else ever
    writes to the cache. *)
Theorem cache_holds_readdir_answers `{U : Unicode} (schedule : list event)
    (w0 w : world) (dir : string) (v : list string) :
  run schedule w0 = Some w ->
  pathCache (this (node w)) !! dir = Some v ->
  pathCache (this (node w0)) !! dir = Some v
  \/ exists c answer,
       Return dir c answer ∈ schedule /\ v = listingOf answer.
Proof.
  revert w0. induction schedule as [|e rest IH]; intros w0; simpl.
  - intros [= <-] Hv. by left.
  - destruct (step e w0) as [w1|] eqn:Hs; [|done]. intros Hr Hv.
    destruct (IH w1 Hr Hv) as [Hv1 | (c & answer & Hin & ->)].
    + destruct (step_cache_source _ _ _ _ _ Hs Hv1)
        as [Hv0 | (c & answer & -> & ->)]; [by left|].
      right. exists c, answer. split; [apply elem_of_cons; by left | done].
    + right. exists c, answer. split; [apply elem_of_cons; by right | done].
Qed.

Lemma cache_holds_readdir_answers_witness :
  pathCache (this (node passStart)) !! "/home"%string = Some ["User"%string]
  \/ exists c answer,
       Return "/home" c answer ∈ servedSchedule
       /\ ["User"%string] = @listingOf ascii_unicode answer.
Proof.
  apply (@cache_holds_readdir_answers ascii_unicode servedSchedule passStart
           servedWorld "/home" ["User"%string]).
  - vm_compute. reflexivity.
  - vm_compute. reflexivity.
Defined.

Lemma step_backlog `{U : Unicode} (e : event) (dir : string) (w w' : world) :
  consistent w -> step e w = Some w' -> isCallOf dir e = false ->
  (if worksOn dir e then 1 else 0) + backlog dir w' <= backlog dir w.
Proof.
  intros Hw Hs Hcall. unfold backlog.
  destruct e as [d | d | d c answer | d]; simpl in Hs, Hcall |- *.
  - apply bool_decide_eq_false in Hcall. injection Hs as <-. unfold doCall.
    destruct (pathCache (ensureMutex d (this (node w))) !! d); simpl;
      rewrite ?mutexOf_setMutex, ?decide_False, mutexOf_ensureMutex by done;
      lia.
  - unfold doRun in Hs.
    destruct (holder (mutexOf d (this (node w)))) as [[c []]|] eqn:Hh;
      try done.
    case_bool_decide as Hd.
    + subst d.
      destruct (pathCache (this (node w)) !! dir); injection Hs as <-; simpl;
        rewrite mutexOf_setMutex, decide_True by done;
        unfold setPhase; rewrite Hh; simpl; lia.
    + destruct (pathCache (this (node w)) !! d); injection Hs as <-; simpl;
        rewrite mutexOf_setMutex, decide_False by done;
        try change (mutexOf dir (countRead (this (node w))))
          with (mutexOf dir (this (node w)));
        lia.
  - unfold doReturn in Hs. case_bool_decide as Hin; [|done].
    injection Hs as <-. simpl. rewrite mutexOf_setMutex.
    change (mutexOf ?x (storeListing d (listingOf answer) (this (node w))))
      with (mutexOf x (this (node w))).
    case_bool_decide as Hd.
    + subst d. rewrite decide_True by done.
      pose proof (inflight_holder dir c w Hw Hin) as Hh.
      unfold resolvePromise. rewrite Hh, decide_True by done.
      unfold setPhase. rewrite Hh. simpl. lia.
    + rewrite decide_False by done. lia.
  - unfold doRelease in Hs.
    destruct (holder (mutexOf d (this (node w)))) as [[c []]|] eqn:Hh;
      try done. injection Hs as <-. simpl. rewrite mutexOf_setMutex.
    case_bool_decide as Hd.
    + subst d. rewrite decide_True by done. rewrite release_holder, Hh.
      destruct (waiters (mutexOf dir (this (node w)))); simpl; lia.
    + rewrite decide_False by done. lia.
Qed.

(** X13. The mutex of a directory cannot keep the event loop busy: in any
    run without a new call for the directory, however the events of other
    directories are mixed in, the events that work on its mutex are at most
    [backlog] many, three for every request in the queue and up to three for
    the holder. *)
Theorem directory_work_is_bounded `{U : Unicode} (schedule later : list event)
    (w w' : world) (dir : string) :
  run schedule passStart = Some w ->
  run later w = Some w' ->
  forallb (fun e => negb (isCallOf dir e)) later = true ->
  length (filter (fun e => worksOn dir e = true) later) + backlog dir w'
  <= backlog dir w.
Proof.
  intros Hrun.
  assert (Hc : consistent w)
    by (eapply run_consistent; [apply passStart_consistent | done]).
  clear Hrun. revert w Hc.
  induction later as [|e rest IH]; intros w Hc; simpl.
  - intros [= <-] _. lia.
  - destruct (step e w) as [w1|] eqn:Hs; [|done].
    intros Hr [Hcall Hrest]%andb_true_iff.
    apply negb_true_iff in Hcall.
    pose proof (step_backlog e dir w w1 Hc Hs Hcall) as Hstep.
    specialize (IH w1 (step_consistent _ _ _ Hc Hs) Hr Hrest).
    rewrite filter_cons. destruct (worksOn dir e); simpl in *; lia.
Qed.

Lemma directory_work_is_bounded_witness :
  length (filter (fun e => worksOn "/home" e = true)
            [Return "/home" 0 (Some ["User"%string]); Call "/etc";
             Release "/home"; Run "/home"])
  + backlog "/home"
      (default passStart
         (@run ascii_unicode
            [Return "/home" 0 (Some ["User"%string]); Call "/etc";
             Release "/home"; Run "/home"] crowdedWorld))
  <= backlog "/home" crowdedWorld.
Proof.
  apply (@directory_work_is_bounded ascii_unicode crowdedSchedule
           [Return "/home" 0 (Some ["User"%string]); Call "/etc";
            Release "/home"; Run "/home"] crowdedWorld).
  - vm_compute. reflexivity.
  - vm_compute. reflexivity.
  - reflexivity.
Defined.

(** X14. With nobody at the mutex of a directory, the run of one request is
    the event loop: the call and at most three more events leave the plugin
    and the file system's history as [getFilenamesInDir] of the one-request
    model does, hand the same sequence to the callback, and leave the mutex
    free again. *)
Theorem one_request_is_a_schedule `{U : Unicode} (fs : inputFileSystem)
    (schedule : list event) (w : world) (dir : string) :
  run schedule passStart = Some w ->
  idle dir w ->
  exists w',
    drain fs dir 3 (doCall dir w) = Some w'
    /\ node w' = (getFilenamesInDir fs dir (node w)).2
    /\ delivered w'
       = delivered w
         ++ [(length (calls w), dir, (getFilenamesInDir fs dir (node w)).1)]
    /\ inflight w' = inflight w
    /\ idle dir w'.
Proof.
  intros Hrun Hidle. apply getFilenamesInDir_schedule; [|done].
  eapply run_consistent; [apply passStart_consistent | done].
Qed.

Lemma one_request_is_a_schedule_witness :
  exists w',
    @drain ascii_unicode exampleDisk "/home/User" 3
      (doCall "/home/User" servedWorld) = Some w'
    /\ node w'
       = (@getFilenamesInDir ascii_unicode exampleDisk "/home/User"
            (node servedWorld)).2
    /\ delivered w'
       = delivered servedWorld
         ++ [(length (calls servedWorld), "/home/User"%string,
              (@getFilenamesInDir ascii_unicode exampleDisk "/home/User"
                 (node servedWorld)).1)]
    /\ inflight w' = inflight servedWorld
    /\ idle "/home/User" w'.
Proof.
  apply (@one_request_is_a_schedule ascii_unicode exampleDisk servedSchedule
           servedWorld "/home/User").
  - vm_compute. reflexivity.
  - vm_compute. reflexivity.
Defined.

(** X15. [reset] does not cancel a read that is in flight. When the [done]
    hook runs while [fs.readdir] has not called back, the late callback
    still stores its listing, now in the cache of the next pass; and a
    request for the same directory made before it arrives gets a new mutex
    and issues a second read, so that two reads of one directory are in
    flight. *)
Theorem reset_keeps_reads_in_flight `{U : Unicode} (w : world) (dir : string)
    (c : nat) (answer : option (list string)) :
  (dir, c) ∈ inflight w ->
  (exists w1,
     step (Return dir c answer) (doDone w) = Some w1
     /\ pathCache (this (node w1)) !! dir = Some (listingOf answer))
  /\ (exists w2,
        run [Call dir; Run dir] (doDone w) = Some w2
        /\ (dir, c) ∈ inflight w2
        /\ (dir, length (calls w)) ∈ inflight w2
        /\ 2 <= length (pendingOf dir w2)).
Proof.
  intros Hin. split.
  - simpl. unfold doReturn. simpl.
    rewrite bool_decide_eq_true_2 by done. eexists. split; [done|].
    simpl. by rewrite lookup_insert_eq.
  - assert (Hrun : run [Call dir; Run dir] (doDone w)
                   = Some
                       {| node :=
                            {| this :=
                                 setMutex dir
                                   {| holder := Some (length (calls w), Reading);
                                      waiters := [] |}
                                   (countRead
                                      (setMutex dir
                                         {| holder :=
                                              Some (length (calls w), Granted);
                                            waiters := [] |}
                                         (ensureMutex dir (reset (this (node w))))));
                               readdirCalls := readdirCalls (node w) ++ [dir] |};
                          inflight := inflight w ++ [(dir, length (calls w))];
                          delivered := delivered w;
                          calls := calls w ++ [dir] |}).
    { simpl. unfold doCall, doRun, ensureMutex, mutexOf, setMutex, acquire,
        dispatch, setPhase, countRead.
      repeat
        (progress
           (cbn [node this holder waiters inflight delivered calls
                 readdirCalls pathCache visitedPathMutexRecord fsOperations
                 fst snd fmap option_fmap option_map default from_option id
                 doDone onDone reset app];
            rewrite ?lookup_insert_eq, ?lookup_empty by done)).
      reflexivity. }
    eexists. split; [exact Hrun|]. simpl.
    split; [apply elem_of_app; by left|].
    split; [apply elem_of_app; right; by apply list_elem_of_singleton|].
    unfold pendingOf. simpl. rewrite filter_app, length_app.
    rewrite filter_cons_True by done. simpl.
    assert (Hpos : 0 < length (filter (fun x : string * nat => x.1 = dir)
                                 (inflight w))).
    { apply list_elem_of_split in Hin as (l1 & l2 & ->).
      rewrite filter_app, filter_cons_True, length_app by done. simpl. lia. }
    lia.
Qed.

Lemma reset_keeps_reads_in_flight_witness :
  (exists w1,
     @step ascii_unicode (Return "/home" 0 None) (doDone crowdedWorld)
     = Some w1
     /\ pathCache (this (node w1)) !! "/home"%string
        = Some (@listingOf ascii_unicode None))
  /\ (exists w2,
        @run ascii_unicode [Call "/home"; Run "/home"] (doDone crowdedWorld)
        = Some w2
        /\ ("/home"%string, 0) ∈ inflight w2
        /\ ("/home"%string, length (calls crowdedWorld)) ∈ inflight w2
        /\ 2 <= length (pendingOf "/home" w2)).
Proof.
  apply (@reset_keeps_reads_in_flight ascii_unicode crowdedWorld "/home" 0
           None).
  vm_compute. apply elem_of_cons. by left.
Defined.

(** ** Where the walk never looks *)

Lemma ancestors_not_atRoot (fuel : nat) (filepath q : string) :
  q ∈ ancestors fuel filepath -> atRoot q = false.
Proof.
  revert filepath. induction fuel as [|fuel IH]; intros filepath; simpl.
  - by intros ?%elem_of_nil.
  - destruct (atRoot filepath) eqn:Hroot; [by intros ?%elem_of_nil|].
    intros [-> | Hin]%elem_of_cons; [done | by eapply IH].
Qed.

(** X16. A walk never asks the file system for the root directory, for the
    current directory or for a directory whose parent is its root: every
    directory it reads has a parent that differs from its root and is not
    ["."], ["/"] or ["//"]. *)
Theorem walk_never_reads_near_root `{U : Unicode} (fs : inputFileSystem)
    (fuel : nat) (filepath : string) (s s' : state) (v : option string) :
  fileExistsWithCase fs fuel filepath s = Some (v, s') ->
  exists more,
    readdirCalls s' = readdirCalls s ++ more
    /\ Forall (fun d => Path.dir (Path.parse d) <> Path.root (Path.parse d)
                        /\ d <> "."%string /\ d <> "/"%string
                        /\ d <> "//"%string) more.
Proof.
  intros Hw.
  destruct (walk_effect fs _ _ _ _ _ Hw) as (more & Hr & _ & _ & Hfresh & _).
  exists more. split; [done|].
  eapply Forall_impl; [exact Hfresh|]. intros d [_ Hin]. simpl.
  apply list_elem_of_fmap in Hin as (q & -> & Hq).
  pose proof (ancestors_not_atRoot _ _ _ Hq) as Hroot.
  assert (Hspecial : ~ (Path.dirname q = "."%string
                        \/ Path.dirname q = "/"%string
                        \/ Path.dirname q = "//"%string)).
  { intros Hsp. apply atRoot_of_dirname_special in Hsp. congruence. }
  unfold atRoot in Hroot. apply orb_false_iff in Hroot as [Hpar _].
  apply String.eqb_neq in Hpar. tauto.
Qed.

Lemma walk_never_reads_near_root_witness :
  exists more,
    readdirCalls
      (@getFilenamesInDir ascii_unicode exampleDisk "/home/User"
         (@getFilenamesInDir ascii_unicode exampleDisk "/home/User/Project"
            freshState).2).2
    = readdirCalls freshState ++ more
    /\ Forall (fun d => Path.dir (Path.parse d) <> Path.root (Path.parse d)
                        /\ d <> "."%string /\ d <> "/"%string
                        /\ d <> "//"%string) more.
Proof.
  apply (@walk_never_reads_near_root ascii_unicode exampleDisk 3
           "/home/User/Project/README.md" freshState _ None).
  vm_compute. reflexivity.
Defined.
